(** * The elasticsearch sink of meniscus: queue-backed bulk indexing

    A shallow embedding of [meniscus/sinks/elasticsearch/sink.py]:
    the index-request encoder and publisher ([put_message],
    [_queue_index_request]), the queue consumer generator
    ([get_queue_stream]), the bulk flush loop ([flush_to_es]) and the process
    pool wrapper ([ElasticSearchStreamBulker]).

    The module talks to three outside parties: the message broker (kombu),
    the search backend's bulk helper (elasticsearch.helpers) and the task
    framework (celery).  They are modelled at their boundary, as the
    answers they give to the calls the module makes. *)

From stdpp Require Import gmap strings list pretty.

Local Open Scope string_scope.
Local Open Scope list_scope.

(** ** Exceptions *)

(** The Python exceptions that can reach the handlers of this module.
    [KeyboardInterrupt] and [SystemExit] derive from [BaseException] only,
    so that [except Exception] does not catch them: they are how a
    termination signal surfaces inside a running loop. *)
Inductive exn :=
  | KeyError            (* missing dictionary key *)
  | TypeError           (* subscript on something that is not a dict *)
  | IndexError          (* pop from an empty list *)
  | Empty               (* SimpleQueue.get: timeout reached, no message *)
  | ConnectionLost      (* broker or backend connection failure *)
  | TransportError      (* the bulk request itself failed *)
  | ValueError          (* Pool(processes) with fewer than one process *)
  | KeyboardInterrupt
  | SystemExit.

Definition is_Exception (ex : exn) : bool :=
  match ex with
  | KeyboardInterrupt | SystemExit => false
  | _ => true
  end.

(** Outcome of a call that either returns or raises. *)
Inductive result (A : Type) :=
  | Ok (a : A)
  | Raise (ex : exn).
Arguments Ok {A} a.
Arguments Raise {A} ex.

#[global] Instance result_ret : MRet result := λ A a, Ok a.
#[global] Instance result_bind : MBind result := λ A B k r,
  match r with
  | Ok a => k a
  | Raise ex => Raise ex
  end.

(** ** Documents *)

(** JSON-compatible values: log documents, index actions, queue payloads. *)
#[warnings="-register-all"]
Inductive json :=
  | JNull
  | JBool (b : bool)
  | JNum (n : Z)
  | JStr (s : string)
  | JList (l : list json)
  | JDict (d : gmap string json).

(** Python's [obj[key]] with a string key. *)
Definition getitem (obj : json) (key : string) : result json :=
  match obj with
  | JDict d =>
      match d !! key with
      | Some v => Ok v
      | None => Raise KeyError
      end
  | _ => Raise TypeError
  end.

(** ** The broker and the backend, at their boundary *)

(** A message as delivered by the broker: the payload and the handle
    (delivery tag) that [ack] sends back. *)
Record QueueMessage := {
  delivery_tag : nat;
  payload : json }.

(** What one [simple_queue.get(block=True, timeout=...)] does: it returns a
    message, or it raises ([Empty] when the timeout elapses with no message,
    a connection error, an interrupt).  The call has no third way out. *)
Inductive get_outcome :=
  | Delivered (msg : QueueMessage)
  | GetRaises (ex : exn).

(** What one bulk request does: one success flag per submitted action, or an
    exception. *)
Inductive bulk_outcome :=
  | BulkResponse (results : list bool)
  | BulkRaises (ex : exn).

(** The module-level globals and the collaborators the module calls. *)
Record Sink := {
  BULK_SIZE : nat;                               (* es_handler.bulk_size *)
  TTL : json;                                    (* es_handler.ttl *)
  uuid4 : nat → string;                          (* str(uuid.uuid4()), by call number *)
  es_bulk : nat → list json → bulk_outcome;      (* answer to the n-th bulk request *)
  msg_ack : QueueMessage → option exn            (* msg.ack(): None, or what it raises *)
}.

(** ** Encoder and publisher *)

(** Where a broker call of [_queue_index_request] can fail: at the
    declaration of the exchange (line 62, the first use of the connection),
    at the acquisition of a producer (line 78) or at the publish itself
    (line 79). *)
Inductive fault :=
  | AtDeclare
  | AtAcquire
  | AtPublish.

(** The publishing side of the broker: the call that fails, if one does,
    and the contents of the durable 'elasticsearch' queue. *)
Record Broker := {
  broker_fault : option fault;
  es_queue : list json }.

(** The broker can be reached and takes the message: none of the three
    calls fails. *)
Definition broker_up (b : Broker) : bool :=
  match broker_fault b with
  | None => true
  | Some _ => false
  end.

(** What [put_message] reads and changes. *)
Record World := {
  broker : Broker;
  uuid_calls : nat;
  log : list exn }.

(** [producer.publish(action, ...)] on a declared exchange. *)
Definition publish (action : json) (b : Broker) : Broker :=
  {| broker_fault := broker_fault b; es_queue := es_queue b ++ [action] |}.

(** [_queue_index_request(index, doc_type, document, ttl=TTL)]: declare the
    exchange, build the action (which draws a uuid), acquire a producer,
    publish.  The answer is the world the call leaves and the exception it
    raised, if any: a failure at the declaration comes before the uuid is
    drawn, a failure at the acquisition or at the publish after it. *)
Definition _queue_index_request (E : Sink)
    (index doc_type document : json) (ttl : json) (w : World)
    : World * option exn :=
  match broker_fault (broker w) with
  | Some AtDeclare => (w, Some ConnectionLost)
  | after_declare =>
      let action := JDict (<["_index" := index]>
                          (<["_type" := doc_type]>
                          (<["_id" := JStr (uuid4 E (uuid_calls w))]>
                          (<["_ttl" := ttl]>
                          (<["_source" := document]> ∅))))) in
      match after_declare with
      | Some _ =>
          ({| broker := broker w; uuid_calls := S (uuid_calls w); log := log w |},
           Some ConnectionLost)
      | None =>
          ({| broker := publish action (broker w);
              uuid_calls := S (uuid_calls w);
              log := log w |}, None)
      end
  end.

(** How a run of a celery task leaves the task body. *)
Inductive task_result :=
  | TaskDone                  (* the body returned *)
  | TaskRetry
      (* [put_message.retry()] was called in the handler: the call does not
         return, it raises celery's retry exception, by which the body is
         left and on which the framework runs the task again *)
  | TaskRaised (ex : exn).    (* an exception the handler does not catch *)

(** The handler of [put_message]:
    [except Exception as ex: _LOG.exception(ex.message); put_message.retry()]. *)
Definition put_message_except (ex : exn) (w : World) : task_result * World :=
  if is_Exception ex then
    (TaskRetry,
     {| broker := broker w; uuid_calls := uuid_calls w; log := log w ++ [ex] |})
  else (TaskRaised ex, w).

(** [put_message(message)]: the two lookups that build the arguments, then
    the call of [_queue_index_request], all inside the [try]. *)
Definition put_message (E : Sink) (message : json) (w : World)
    : task_result * World :=
  let arguments :=
    meniscus ← getitem message "meniscus";
    index ← getitem meniscus "tenant";
    meniscus' ← getitem message "meniscus";
    correlation ← getitem meniscus' "correlation";
    doc_type ← getitem correlation "pattern";
    mret (index, doc_type) in
  match arguments with
  | Raise ex => put_message_except ex w
  | Ok (index, doc_type) =>
      match _queue_index_request E index doc_type message (TTL E) w with
      | (w', None) => (TaskDone, w')
      | (w', Some ex) => put_message_except ex w'
      end
  end.

(** The two required fields of a correlated document, read directly:
    [tenant] and [correlation.pattern] under the [meniscus] key. *)
Definition required_fields (message : json) : option (json * json) :=
  match message with
  | JDict d =>
      match d !! "meniscus" with
      | Some (JDict m) =>
          match m !! "tenant", m !! "correlation" with
          | Some tenant, Some (JDict c) =>
              match c !! "pattern" with
              | Some pattern => Some (tenant, pattern)
              | None => None
              end
          | _, _ => None
          end
      | _ => None
      end
  | _ => None
  end.

(** ** The consumer stream and the flush loop *)

(** What a worker does, in the order it does it. *)
Inductive event :=
  | EvNewCycle                           (* lines 116-120: new ack_list, stream, bulker *)
  | EvAppend (msg : QueueMessage)        (* line 98: ack_list.append(msg) *)
  | EvYield (p : json)                   (* line 99: yield msg.payload *)
  | EvBulk (chunk : list json)           (* one bulk request, sent by streaming_bulk *)
  | EvPop (msg : QueueMessage) (ok : bool)   (* lines 124-125 *)
  | EvAck (msg : QueueMessage)           (* line 128: msg.ack() *)
  | EvLog (ex : exn).                    (* line 131: _LOG.exception(ex) *)

(** Where the control of [flush_to_es] is. *)
Inductive control :=
  | Restart                              (* top of the outer [while True] *)
  | Pulling (n : nat) (chunk : list json)
      (* the bulker is collecting a chunk from the stream: [n] more to pull *)
  | Yielding (results : list bool)
      (* [for response in bulker]: the results of the chunk still to come *)
  | Exhausted                            (* the bulker has returned; the inner loop spins *)
  | Crashed (ex : exn).                  (* an exception left [flush_to_es] *)

Record worker := {
  pc : control;
  ack_list : list QueueMessage;          (* the local [ack_list] of the current cycle *)
  simple_queue : list get_outcome;       (* the answers to the [get] calls still to come *)
  bulk_timeout : nat;
  trace : list event }.

Definition acks (tr : list event) : list QueueMessage :=
  omap (λ e, match e with EvAck m => Some m | _ => None end) tr.
Definition pulls (tr : list event) : list QueueMessage :=
  omap (λ e, match e with EvAppend m => Some m | _ => None end) tr.
Definition pops (tr : list event) : list QueueMessage :=
  omap (λ e, match e with EvPop m _ => Some m | _ => None end) tr.
Definition bulk_calls (tr : list event) : list (list json) :=
  omap (λ e, match e with EvBulk c => Some c | _ => None end) tr.
Definition logged (tr : list event) : list exn :=
  omap (λ e, match e with EvLog ex => Some ex | _ => None end) tr.

(** The events of the cycle in progress: those after the last [EvNewCycle]. *)
Definition current_cycle (tr : list event) : list event :=
  foldl (λ acc e, match e with EvNewCycle => [] | _ => acc ++ [e] end) [] tr.

(** The messages a queue script still holds. *)
Definition deliveries (q : list get_outcome) : list QueueMessage :=
  omap (λ o, match o with Delivered m => Some m | GetRaises _ => None end) q.

(** The outcome of one [next()] on the generator of [get_queue_stream]. *)
Inductive stream_step :=
  | Blocked                                            (* [get] is still waiting *)
  | Yields (p : json) (ack_list : list QueueMessage)
           (q : list get_outcome) (evs : list event)
  | StreamRaises (ex : exn) (q : list get_outcome).

(** [get_queue_stream(ack_list, bulk_timeout)], one round of its loop:
    [msg = simple_queue.get(block=True, timeout=bulk_timeout)],
    [ack_list.append(msg)], [yield msg.payload].  How long [get] waits is
    the broker's business: the script [q] already says how each call ends. *)
Definition get_queue_stream (ack_list : list QueueMessage) (bulk_timeout : nat)
    (q : list get_outcome) : stream_step :=
  match q with
  | [] => Blocked
  | Delivered msg :: q' =>
      Yields (payload msg) (ack_list ++ [msg]) q'
             [EvAppend msg; EvYield (payload msg)]
  | GetRaises ex :: q' => StreamRaises ex q'
  end.

(** The [except Exception as ex: _LOG.exception(ex)] of [flush_to_es]: an
    [Exception] is logged and the outer loop goes round again; anything else
    leaves the function. *)
Definition handle (ex : exn) (w : worker) : worker :=
  if is_Exception ex then
    {| pc := Restart; ack_list := ack_list w; simple_queue := simple_queue w;
       bulk_timeout := bulk_timeout w; trace := trace w ++ [EvLog ex] |}
  else
    {| pc := Crashed ex; ack_list := ack_list w; simple_queue := simple_queue w;
       bulk_timeout := bulk_timeout w; trace := trace w |}.

(** Modelled from the spec: the bulk helper [es_helpers.streaming_bulk], a
    library generator whose code is not in the repository (sections 4.4 and
    6 of the spec give its contract).  It takes [chunk_size] actions from the
    stream, sends them as one request and yields the per-action results of
    that request one by one, in the order submitted; it returns when the
    stream gave it nothing.  The [Pulling] and [Yielding] cases of
    [flush_to_es_step] are its two phases; this is the sending of a chunk. *)
Definition streaming_bulk_send (E : Sink) (chunk : list json) (w : worker) : worker :=
  let sent :=
    {| pc := pc w; ack_list := ack_list w; simple_queue := simple_queue w;
       bulk_timeout := bulk_timeout w; trace := trace w ++ [EvBulk chunk] |} in
  match es_bulk E (length (bulk_calls (trace w))) chunk with
  | BulkResponse results =>
      {| pc := Yielding results; ack_list := ack_list w;
         simple_queue := simple_queue w; bulk_timeout := bulk_timeout w;
         trace := trace sent |}
  | BulkRaises ex => handle ex sent
  end.

(** One step of [flush_to_es(bulk_timeout)]. *)
Definition flush_to_es_step (E : Sink) (w : worker) : worker :=
  match pc w with
  | Restart =>
      (* ack_list = list(); actions = get_queue_stream(ack_list, bulk_timeout);
         bulker = es_helpers.streaming_bulk(es_client, actions, chunk_size=BULK_SIZE) *)
      {| pc := Pulling (BULK_SIZE E) []; ack_list := [];
         simple_queue := simple_queue w; bulk_timeout := bulk_timeout w;
         trace := trace w ++ [EvNewCycle] |}
  | Pulling (S n) chunk =>
      match get_queue_stream (ack_list w) (bulk_timeout w) (simple_queue w) with
      | Blocked => w
      | Yields p ack_list' q' evs =>
          {| pc := Pulling n (chunk ++ [p]); ack_list := ack_list';
             simple_queue := q'; bulk_timeout := bulk_timeout w;
             trace := trace w ++ evs |}
      | StreamRaises ex q' =>
          handle ex {| pc := pc w; ack_list := ack_list w; simple_queue := q';
                       bulk_timeout := bulk_timeout w; trace := trace w |}
      end
  | Pulling 0 chunk =>
      match chunk with
      | [] =>
          {| pc := Exhausted; ack_list := ack_list w;
             simple_queue := simple_queue w; bulk_timeout := bulk_timeout w;
             trace := trace w |}
      | _ :: _ => streaming_bulk_send E chunk w
      end
  | Yielding [] =>
      {| pc := Pulling (BULK_SIZE E) []; ack_list := ack_list w;
         simple_queue := simple_queue w; bulk_timeout := bulk_timeout w;
         trace := trace w |}
  | Yielding (msg_ok :: results) =>
      (* msg = ack_list.pop(0); msg_ok = response[0]; if msg_ok: msg.ack() *)
      match ack_list w with
      | [] => handle IndexError w
      | msg :: rest =>
          let popped evs :=
            {| pc := Yielding results; ack_list := rest;
               simple_queue := simple_queue w; bulk_timeout := bulk_timeout w;
               trace := trace w ++ EvPop msg msg_ok :: evs |} in
          if msg_ok then
            match msg_ack E msg with
            | None => popped [EvAck msg]
            | Some ex => handle ex (popped [])
            end
          else popped []
      end
  | Exhausted => w
  | Crashed _ => w
  end.

(** A worker about to enter [flush_to_es(bulk_timeout)]. *)
Definition worker_init (bulk_timeout : nat) (q : list get_outcome) : worker :=
  {| pc := Restart; ack_list := []; simple_queue := q;
     bulk_timeout := bulk_timeout; trace := [] |}.

(** [flush_to_es(bulk_timeout)], observed after [steps] steps. *)
Definition flush_to_es (E : Sink) (bulk_timeout : nat) (q : list get_outcome)
    (steps : nat) : worker :=
  Nat.iter steps (flush_to_es_step E) (worker_init bulk_timeout q).

(** The durable queue as the broker sees it: what was delivered stays queued
    until its delivery tag is acknowledged. *)
Definition durable_queue (delivered : list QueueMessage) (tr : list event)
    : list QueueMessage :=
  filter (λ m, delivery_tag m ∉ delivery_tag <$> acks tr) delivered.

(** ** The process pool *)

(** Signals, by number. *)
Definition SIGINT : nat := 2.
Definition SIGTERM : nat := 15.

(** The only signal handler this module defines: the closure
    [signal_handler] inside [start]. *)
Inductive handler := signal_handler_closure.

Inductive main_status :=
  | InMap               (* blocked in [pool.map] *)
  | InJoin              (* blocked in [pool.join] *)
  | Exited              (* [sys.exit(0)] reached *)
  | Killed              (* ended by the default disposition of a signal *)
  | Raised (ex : exn).  (* an exception left the parent's call *)

Record ElasticSearchStreamBulker := {
  self_bulk_size : nat;
  self_bulk_timeout : nat;
  self_concurrency : nat }.

(** The parent process once [start] has been entered. *)
Record process := {
  self : ElasticSearchStreamBulker;
  handlers : gmap nat handler;           (* what [signal.signal] has installed *)
  pool_workers : list worker;            (* [self.pool]: one entry per worker process *)
  pool_closed : bool;
  main : main_status }.

(** [ElasticSearchStreamBulker.__init__(bulk_size=BULK_SIZE, bulk_timeout=60,
    concurrency=None)]; [None] stands for an argument left out. *)
Definition ElasticSearchStreamBulker_init (E : Sink) (cpu_count : nat)
    (bulk_size bulk_timeout concurrency : option nat) : ElasticSearchStreamBulker :=
  {| self_bulk_size := default (BULK_SIZE E) bulk_size;
     self_bulk_timeout := default 60 bulk_timeout;
     self_concurrency := default cpu_count concurrency |}.

(** [ElasticSearchStreamBulker.start()]: [Pool(self.concurrency)], the
    definition of the closure [signal_handler] (which installs nothing), and
    [pool.map(flush_to_es, [self.bulk_timeout for x in range(self.concurrency)])].
    [Pool] refuses fewer than one process with a [ValueError], which nothing
    in [start] catches.  [queues i] is what the broker will deliver to the
    [i]-th worker. *)
Definition start (b : ElasticSearchStreamBulker) (installed : gmap nat handler)
    (queues : nat → list get_outcome) : process :=
  match self_concurrency b with
  | 0 =>
      {| self := b; handlers := installed; pool_workers := [];
         pool_closed := false; main := Raised ValueError |}
  | S _ =>
      {| self := b;
         handlers := installed;
         pool_workers :=
           (λ i, worker_init (self_bulk_timeout b) (queues i))
             <$> seq 0 (self_concurrency b);
         pool_closed := false;
         main := InMap |}
  end.

(** Every worker of the pool runs [flush_to_es] for [steps] steps. *)
Definition pool_run (E : Sink) (steps : nat) (p : process) : process :=
  {| self := self p; handlers := handlers p;
     pool_workers := Nat.iter steps (flush_to_es_step E) <$> pool_workers p;
     pool_closed := pool_closed p; main := main p |}.

(** A worker process is done once its task has left [flush_to_es]. *)
Definition runnable (w : worker) : bool :=
  match pc w with
  | Crashed _ => false
  | _ => true
  end.

(** The body of [signal_handler]: [self.pool.close()], [self.pool.join()],
    the log line, [sys.exit(0)].  [close] only stops new submissions; [join]
    waits for the tasks given to [pool.map], which never end: [flush_to_es]
    does not return, and the pool puts a new worker in the place of one that
    dies.  So the handler stays in [join]. *)
Definition signal_handler (p : process) : process :=
  {| self := self p; handlers := handlers p; pool_workers := pool_workers p;
     pool_closed := true; main := InJoin |}.

(** Delivery of a signal to the parent process: the installed handler runs.
    With none installed, SIGINT is taken by Python's own handler, which
    raises [KeyboardInterrupt] in the parent, and the pool's workers go down
    with it; any other terminating signal ends the parent by its default
    disposition and touches nothing else (the worker processes are not
    signalled). *)
Definition deliver (sig : nat) (p : process) : process :=
  match handlers p !! sig with
  | Some signal_handler_closure => signal_handler p
  | None =>
      if decide (sig = SIGINT) then
        {| self := self p; handlers := handlers p; pool_workers := [];
           pool_closed := pool_closed p; main := Raised KeyboardInterrupt |}
      else
        {| self := self p; handlers := handlers p; pool_workers := pool_workers p;
           pool_closed := pool_closed p; main := Killed |}
  end.

(** ** Batches of documents *)

(** [put_message] run on a batch of documents, one task after the other. *)
Definition put_messages (E : Sink) (messages : list json) (w : World) : World :=
  foldl (λ w message, (put_message E message w).2) w messages.

(** The [_id] field of a published action. *)
Definition action_id (a : json) : option json :=
  match a with
  | JDict d => d !! "_id"
  | _ => None
  end.

(** The identifiers in the queue are tokens drawn so far, each one once. *)
Definition ids_inv (E : Sink) (w : World) : Prop :=
  ∃ l, omap action_id (es_queue (broker w)) = (JStr ∘ uuid4 E) <$> l ∧
       NoDup l ∧ Forall (λ i, (i < uuid_calls w)%nat) l.

(** ** What the flush loop is meant to do, and what it keeps true *)

(** The walk the flush loop is meant to perform over one chunk: for each
    result, in order, the oldest pending message is popped, and acknowledged
    when the result is a success. *)
Fixpoint walk_events (ms : list QueueMessage) (results : list bool) : list event :=
  match results, ms with
  | ok :: results', m :: ms' =>
      EvPop m ok :: (if ok then [EvAck m] else []) ++ walk_events ms' results'
  | _, _ => []
  end.

(** The messages of a chunk whose result is a success. *)
Fixpoint successes (ms : list QueueMessage) (results : list bool) : list QueueMessage :=
  match results, ms with
  | ok :: results', m :: ms' =>
      (if ok then [m] else []) ++ successes ms' results'
  | _, _ => []
  end.

(** The exception, if any, that the next step of the loop meets inside the
    [try] block: from the queue pull, from the bulk request, from the pop or
    from the acknowledgment. *)
Definition raised (E : Sink) (w : worker) : option exn :=
  match pc w with
  | Pulling (S _) _ =>
      match simple_queue w with
      | GetRaises ex :: _ => Some ex
      | _ => None
      end
  | Pulling 0 (a :: chunk) =>
      match es_bulk E (length (bulk_calls (trace w))) (a :: chunk) with
      | BulkRaises ex => Some ex
      | BulkResponse _ => None
      end
  | Yielding (msg_ok :: _) =>
      match ack_list w with
      | [] => Some IndexError
      | msg :: _ => if msg_ok then msg_ack E msg else None
      end
  | _ => None
  end.

(** A worker at the top of a cycle it has just begun. *)
Definition fresh_cycle (E : Sink) (w : worker) : Prop :=
  pc w = Pulling (BULK_SIZE E) [] ∧ ack_list w = [].

(** Every payload handed to the bulker comes right after the append of its
    message to the pending list. *)
Definition appended_before_yield (tr : list event) : Prop :=
  ∀ i p, tr !! i = Some (EvYield p) →
    ∃ j msg, i = S j ∧ tr !! j = Some (EvAppend msg) ∧ payload msg = p.

(** The bulker always asks for [BULK_SIZE] payloads, the module-level
    constant, and sends a chunk once it has them. *)
Definition chunk_inv (E : Sink) (w : worker) : Prop :=
  (∀ n chunk, pc w = Pulling n chunk → n + length chunk = BULK_SIZE E) ∧
  (∀ chunk, chunk ∈ bulk_calls (trace w) → length chunk = BULK_SIZE E).

(** The pending list is what the cycle has pulled, less what it has popped
    from the front. *)
Definition fifo_inv (w : worker) : Prop :=
  pulls (current_cycle (trace w)) = pops (current_cycle (trace w)) ++ ack_list w.

(** The backend answers a request with one result per action (the
    contract of the bulk-write API). *)
Definition one_result_per_action (E : Sink) : Prop :=
  ∀ k chunk results,
    es_bulk E k chunk = BulkResponse results → length results = length chunk.

(** While a chunk is collected the pending list holds exactly its messages;
    while its results are walked it holds one message per result still to
    come. *)
Definition aligned (w : worker) : Prop :=
  match pc w with
  | Pulling _ chunk => payload <$> ack_list w = chunk
  | Yielding results => length (ack_list w) = length results
  | _ => True
  end.

(** Messages waiting on the pending list or still in the queue are
    distinct and none of them has been acknowledged. *)
Definition unacked_inv (w : worker) : Prop :=
  NoDup (ack_list w ++ deliveries (simple_queue w)) ∧
  ∀ m, m ∈ acks (trace w) → m ∉ ack_list w ++ deliveries (simple_queue w).

(** [m] is out of reach of the loop: not acknowledged, not in the queue,
    and on no pending list that the loop will read again. *)
Definition abandoned (m : QueueMessage) (w : worker) : Prop :=
  (m ∉ acks (trace w)) ∧ (m ∉ deliveries (simple_queue w)) ∧
  (pc w = Restart ∨ (∃ ex, pc w = Crashed ex) ∨ m ∉ ack_list w).

(** Within one cycle, whatever was acknowledged was pulled in that cycle
    and had a success result walked for it. *)
Definition acked_in_cycle (cc : list event) : Prop :=
  ∀ m, EvAck m ∈ cc → EvPop m true ∈ cc ∧ EvAppend m ∈ cc.

(** The two facts about the cycle in progress, kept together. *)
Definition cycle_inv (w : worker) : Prop :=
  fifo_inv w ∧ acked_in_cycle (current_cycle (trace w)).

(** ** Concrete inputs *)

Definition doc (tenant pattern : string) : json :=
  JDict {[ "meniscus" :=
             JDict (<["tenant" := JStr tenant]>
                   {[ "correlation" := JDict {[ "pattern" := JStr pattern ]} ]});
           "message" := JStr "GET /index.html" ]}.

(** A document with no tenant. *)
Definition doc_no_tenant : json :=
  JDict {[ "meniscus" :=
             JDict {[ "correlation" := JDict {[ "pattern" := JStr "apache" ]} ]} ]}.

Definition action (id : string) : json :=
  JDict (<["_index" := JStr "t1"]> (<["_type" := JStr "apache"]>
        (<["_id" := JStr id]> (<["_ttl" := JStr "30d"]>
        {[ "_source" := doc "t1" "apache" ]})))).

Definition msgA : QueueMessage := {| delivery_tag := 1; payload := action "A" |}.
Definition msgB : QueueMessage := {| delivery_tag := 2; payload := action "B" |}.
Definition msgC : QueueMessage := {| delivery_tag := 3; payload := action "C" |}.

(** A sink whose backend answers every request with the flags [answer]
    computes from the chunk, and whose [ack] never fails. *)
Definition sink (size : nat) (answer : list json → list bool) : Sink :=
  {| BULK_SIZE := size; TTL := JStr "30d"; uuid4 := pretty;
     es_bulk := λ _ chunk, BulkResponse (answer chunk);
     msg_ack := λ _, None |}.

(** The backend of the A, B, C scenario: B fails, the others succeed. *)
Definition B_fails (chunk : list json) : list bool :=
  (λ i, negb (Nat.eqb i 1)) <$> seq 0 (length chunk).

Definition all_ok (chunk : list json) : list bool := (λ _, true) <$> chunk.

Definition world0 : World :=
  {| broker := {| broker_fault := None; es_queue := [] |}; uuid_calls := 0; log := [] |}.

Definition queue_ABC : list get_outcome :=
  [Delivered msgA; Delivered msgB; Delivered msgC].

(** A first message, then a pull that times out, then two more messages. *)
Definition queue_timeout : list get_outcome :=
  [Delivered msgA; GetRaises Empty; Delivered msgB; Delivered msgC].

(** The reading of an empty polling round as a non-event: nothing logged,
    the loop where it was, the pending list as it was. *)
Definition timeout_is_silent (w w' : worker) : Prop :=
  logged (trace w') = logged (trace w) ∧ pc w' = pc w ∧ ack_list w' = ack_list w.

(** The reading of a failed encode as an error handed to the caller with
    no retry. *)
Definition surfaced_without_retry (r : task_result) : Prop :=
  ∃ ex, r = TaskRaised ex.

(** ** Further observations of the encoder and of the loop *)

(** The [_source] field of a published action. *)
Definition action_source (a : json) : option json :=
  match a with
  | JDict d => d !! "_source"
  | _ => None
  end.

(** A document that has both required fields. *)
Definition well_formed (message : json) : bool :=
  match required_fields message with
  | Some _ => true
  | None => false
  end.

(** An action that agrees with its own payload: [_index] and [_type] are
    the tenant and the pattern found in its [_source]. *)
Definition consistent_action (a : json) : Prop :=
  ∃ d document tenant pattern,
    a = JDict d ∧ d !! "_source" = Some document ∧
    required_fields document = Some (tenant, pattern) ∧
    d !! "_index" = Some tenant ∧ d !! "_type" = Some pattern.

(** How many cycles a worker has begun. *)
Definition new_cycles (tr : list event) : nat :=
  length (omap (λ e, match e with EvNewCycle => Some () | _ => None end) tr).

(** The chunk the bulker is collecting, if it is collecting one. *)
Definition in_flight (w : worker) : list json :=
  match pc w with
  | Pulling _ chunk => chunk
  | _ => []
  end.

(** The payload of [m] went out in one of the bulk requests. *)
Definition submitted (m : QueueMessage) (tr : list event) : Prop :=
  ∃ chunk, chunk ∈ bulk_calls tr ∧ payload m ∈ chunk.

(** The events of pulling the messages [ms] one after the other. *)
Definition pull_events (ms : list QueueMessage) : list event :=
  ms ≫= λ m, [EvAppend m; EvYield (payload m)].

(** Whatever was acknowledged was submitted, and so is, or is about to
    be, whatever waits on the pending list. *)
Definition submitted_inv (w : worker) : Prop :=
  (∀ m, m ∈ acks (trace w) → submitted m (trace w)) ∧
  match pc w with
  | Yielding _ => ∀ m, m ∈ ack_list w → submitted m (trace w)
  | Pulling _ chunk =>
      ∀ m, m ∈ ack_list w → submitted m (trace w) ∨ payload m ∈ chunk
  | _ => True
  end.

(** A world whose broker cannot be reached. *)
Definition world_down : World :=
  {| broker := {| broker_fault := Some AtDeclare; es_queue := [] |};
     uuid_calls := 0; log := [] |}.

(** A world whose broker takes the declaration and fails at the publish. *)
Definition world_publish_fails : World :=
  {| broker := {| broker_fault := Some AtPublish; es_queue := [] |};
     uuid_calls := 0; log := [] |}.

(** A backend that answers with one result too many, and one that answers
    with a single result whatever the chunk. *)
Definition one_too_many (chunk : list json) : list bool := all_ok chunk ++ [true].
Definition one_only (chunk : list json) : list bool := [true].

(** A first message, then an interrupt during the next pull. *)
Definition queue_interrupt : list get_outcome :=
  [Delivered msgA; GetRaises KeyboardInterrupt; Delivered msgB].

(** * Properties of the encoder *)

Section Encoder.
Variable E : Sink.

(** With both fields present the lookups succeed and the task goes on to
    [_queue_index_request]. *)
Lemma put_message_fields message w tenant pattern :
  required_fields message = Some (tenant, pattern) →
  put_message E message w =
    match _queue_index_request E tenant pattern message (TTL E) w with
    | (w', None) => (TaskDone, w')
    | (w', Some ex) => put_message_except ex w'
    end.
Proof.
  unfold required_fields, put_message, getitem, mbind, result_bind, mret, result_ret.
  destruct message as [| | | | |d]; try discriminate.
  destruct (d !! "meniscus") as [[| | | | |m]|]; try discriminate.
  destruct (m !! "tenant") as [t|]; try discriminate.
  destruct (m !! "correlation") as [[| | | | |c]|]; try discriminate.
  destruct (c !! "pattern") as [p|]; try discriminate.
  intros [= <- <-]. reflexivity.
Qed.

(** With a field missing a lookup raises, and the handler of the task
    logs the exception and asks for a retry. *)
Lemma put_message_no_fields message w :
  required_fields message = None →
  ∃ ex, (ex = KeyError ∨ ex = TypeError) ∧
    put_message E message w =
      (TaskRetry, {| broker := broker w; uuid_calls := uuid_calls w;
                     log := log w ++ [ex] |}).
Proof.
  unfold required_fields, put_message, put_message_except, getitem,
    mbind, result_bind, mret, result_ret.
  destruct message as [| | | | |d]; try (intros _; eexists; split; [right|]; reflexivity).
  destruct (d !! "meniscus") as [[| | | | |m]|];
    try (intros _; eexists; split; [right|]; reflexivity);
    try (intros _; eexists; split; [left|]; reflexivity).
  destruct (m !! "tenant") as [t|];
    try (intros _; eexists; split; [left|]; reflexivity).
  destruct (m !! "correlation") as [[| | | | |c]|];
    try (intros _; eexists; split; [right|]; reflexivity);
    try (intros _; eexists; split; [left|]; reflexivity).
  destruct (c !! "pattern") as [p|]; try discriminate.
  intros _; eexists; split; [left|]; reflexivity.
Qed.

(** On a broker that takes the message the request publishes its action. *)
Lemma _queue_index_request_up index doc_type document ttl w :
  broker_up (broker w) = true →
  _queue_index_request E index doc_type document ttl w =
    ({| broker := publish (JDict (<["_index" := index]>
                                 (<["_type" := doc_type]>
                                 (<["_id" := JStr (uuid4 E (uuid_calls w))]>
                                 (<["_ttl" := ttl]>
                                 (<["_source" := document]> ∅))))))
                          (broker w);
        uuid_calls := S (uuid_calls w); log := log w |}, None).
Proof.
  unfold broker_up, _queue_index_request.
  by destruct (broker_fault (broker w)).
Qed.

(** On a broker with a failing call the request raises and publishes
    nothing; a uuid may or may not have been drawn by then. *)
Lemma _queue_index_request_down index doc_type document ttl w :
  broker_up (broker w) = false →
  ∃ n, (uuid_calls w ≤ n)%nat ∧
    _queue_index_request E index doc_type document ttl w =
      ({| broker := broker w; uuid_calls := n; log := log w |},
       Some ConnectionLost).
Proof.
  unfold broker_up, _queue_index_request.
  destruct w as [b n l]. cbn.
  destruct (broker_fault b) as [[| |]|]; try done; intros _.
  - by exists n.
  - exists (S n). split; [lia|done].
  - exists (S n). split; [lia|done].
Qed.

Lemma put_message_ids message w :
  ids_inv E w → ids_inv E (put_message E message w).2.
Proof.
  intros (l & Hq & Hnd & Hlt).
  destruct (required_fields message) as [[tenant pattern]|] eqn:Hreq.
  - rewrite (put_message_fields _ _ _ _ Hreq).
    destruct (broker_up (broker w)) eqn:Hup.
    + rewrite _queue_index_request_up by done.
      exists (l ++ [uuid_calls w]). unfold publish. cbn [snd broker uuid_calls es_queue].
      rewrite omap_app, Hq, fmap_app. split_and!.
      * done.
      * apply NoDup_app. split_and!; [done| |apply NoDup_singleton].
        intros i Hi ->%list_elem_of_singleton.
        rewrite Forall_forall in Hlt. specialize (Hlt _ Hi). lia.
      * apply Forall_app. split; [|apply Forall_singleton; lia].
        eapply Forall_impl; [exact Hlt|]. cbn. lia.
    + destruct (_queue_index_request_down tenant pattern message (TTL E) w Hup)
        as (n & Hn & ->). unfold put_message_except. cbn.
      exists l. split_and!; [done|done|].
      eapply Forall_impl; [exact Hlt|]. cbn. lia.
  - destruct (put_message_no_fields message w Hreq) as (ex & _ & ->).
    by exists l.
Qed.

Lemma put_messages_ids messages w :
  ids_inv E w → ids_inv E (put_messages E messages w).
Proof.
  revert w. induction messages as [|message messages IH]; intros w Hinv; [exact Hinv|].
  apply IH, put_message_ids, Hinv.
Qed.

End Encoder.

(** * Properties of the flush loop *)

Section Trace.

Lemma acks_app tr1 tr2 : acks (tr1 ++ tr2) = acks tr1 ++ acks tr2.
Proof. apply omap_app. Qed.
Lemma pulls_app tr1 tr2 : pulls (tr1 ++ tr2) = pulls tr1 ++ pulls tr2.
Proof. apply omap_app. Qed.
Lemma pops_app tr1 tr2 : pops (tr1 ++ tr2) = pops tr1 ++ pops tr2.
Proof. apply omap_app. Qed.
Lemma bulk_calls_app tr1 tr2 : bulk_calls (tr1 ++ tr2) = bulk_calls tr1 ++ bulk_calls tr2.
Proof. apply omap_app. Qed.
Lemma logged_app tr1 tr2 : logged (tr1 ++ tr2) = logged tr1 ++ logged tr2.
Proof. apply omap_app. Qed.

Lemma current_cycle_snoc tr e :
  current_cycle (tr ++ [e]) =
    match e with EvNewCycle => [] | _ => current_cycle tr ++ [e] end.
Proof. unfold current_cycle. rewrite foldl_app. reflexivity. Qed.

Lemma current_cycle_app tr evs :
  EvNewCycle ∉ evs → current_cycle (tr ++ evs) = current_cycle tr ++ evs.
Proof.
  revert tr. induction evs as [|e evs IH]; intros tr Hnew.
  - by rewrite !app_nil_r.
  - rewrite (cons_middle e tr evs), app_assoc, IH, current_cycle_snoc.
    + destruct e; rewrite <- ?app_assoc; try done. exfalso. apply Hnew. left.
    + intros Hin. apply Hnew. by right.
Qed.

Lemma acks_walk_events ms results :
  acks (walk_events ms results) = successes ms results.
Proof.
  revert ms. induction results as [|ok results IH]; intros [|m ms]; try done.
  simpl. destruct ok; simpl; by rewrite IH.
Qed.

Lemma pops_walk_events ms results :
  length ms = length results → pops (walk_events ms results) = ms.
Proof.
  revert ms. induction results as [|ok results IH]; intros [|m ms] Hlen; try done.
  simpl in *. destruct ok; simpl; rewrite IH; auto.
Qed.

Lemma appended_before_yield_nil : appended_before_yield [].
Proof. intros i p Hi. by rewrite lookup_nil in Hi. Qed.

(** Events other than a yield keep the property. *)
Lemma appended_before_yield_other tr evs :
  (∀ p, EvYield p ∉ evs) →
  appended_before_yield tr → appended_before_yield (tr ++ evs).
Proof.
  intros Hno Htr i p Hi. apply lookup_app_Some in Hi as [Hi|[Hge Hi]].
  - destruct (Htr i p Hi) as (j & msg & -> & Hj & Hp).
    exists j, msg. split_and!; auto. by apply lookup_app_l_Some.
  - exfalso. apply (Hno p). eapply list_elem_of_lookup_2, Hi.
Qed.

(** One round of the stream keeps the property. *)
Lemma appended_before_yield_pull tr msg :
  appended_before_yield tr →
  appended_before_yield (tr ++ [EvAppend msg; EvYield (payload msg)]).
Proof.
  intros Htr i p Hi. apply lookup_app_Some in Hi as [Hi|[Hge Hi]].
  - destruct (Htr i p Hi) as (j & m & -> & Hj & Hp).
    exists j, m. split_and!; auto. by apply lookup_app_l_Some.
  - destruct (i - length tr) as [|[|k]] eqn:Hk; simpl in Hi; try done.
    injection Hi as <-. exists (length tr), msg. split_and!; [lia| |done].
    rewrite lookup_app_r by lia. by rewrite Nat.sub_diag.
Qed.

End Trace.

(** Case analysis on one step of the loop: every branch of
    [flush_to_es_step] becomes a goal. *)
Ltac step_cases w :=
  destruct w as [c al q bt tr];
  unfold flush_to_es_step, streaming_bulk_send, get_queue_stream, handle;
  cbn [pc ack_list simple_queue bulk_timeout trace];
  repeat (first
    [ match goal with
      | |- context [match ?x with _ => _ end] => is_var x; destruct x
      end
    | match goal with
      | |- context [match ?x with _ => _ end] => destruct x eqn:?
      end ];
    cbn [pc ack_list simple_queue bulk_timeout trace] in *).

(** No [EvNewCycle] in an explicit list of other events. *)
Ltac no_new_cycle :=
  let Hin := fresh "Hin" in
  intros Hin;
  repeat (apply elem_of_cons in Hin as [Hin|Hin]; [discriminate Hin|]);
  by apply elem_of_nil in Hin.

Section Worker.
Variable E : Sink.

Local Abbreviation step := (flush_to_es_step E).
Local Abbreviation run := (flush_to_es E).

Lemma run_S bt q n : run bt q (S n) = step (run bt q n).
Proof. reflexivity. Qed.

Lemma run_add bt q k n : run bt q (k + n) = Nat.iter k step (run bt q n).
Proof. unfold flush_to_es. by rewrite Nat.iter_add. Qed.

(** A property that holds at the start and is kept by every step holds
    all along the run. *)
Lemma run_ind (P : worker → Prop) bt q :
  P (worker_init bt q) → (∀ w, P w → P (step w)) → ∀ n, P (run bt q n).
Proof. intros H0 HS n. induction n as [|n IH]; [exact H0|]. apply HS, IH. Qed.

(** *** The handler *)

Lemma step_raised w ex :
  raised E w = Some ex → is_Exception ex = true →
  pc (step w) = Restart ∧ logged (trace (step w)) = logged (trace w) ++ [ex].
Proof.
  unfold raised. step_cases w; intros Hr Hex; simplify_eq;
    rewrite ?logged_app; simpl; rewrite ?app_nil_r; try done; congruence.
Qed.

Lemma step_raised_base w ex :
  raised E w = Some ex → is_Exception ex = false → pc (step w) = Crashed ex.
Proof.
  unfold raised. step_cases w; intros Hr Hex; simplify_eq; try done; congruence.
Qed.

Lemma step_restart w :
  pc w = Restart →
  fresh_cycle E (step w) ∧ trace (step w) = trace w ++ [EvNewCycle] ∧
  simple_queue (step w) = simple_queue w.
Proof. destruct w as [c al q bt tr]; simpl. intros ->. by unfold fresh_cycle. Qed.

Lemma step_crash_only_base w ex0 :
  (∀ ex, pc w = Crashed ex → is_Exception ex = false) →
  pc (step w) = Crashed ex0 → is_Exception ex0 = false.
Proof.
  revert ex0. step_cases w; intros ex0 Hw Hc; simplify_eq; try done; eauto.
Qed.

Lemma run_crash_only_base bt q n ex :
  pc (run bt q n) = Crashed ex → is_Exception ex = false.
Proof.
  revert ex. apply (run_ind (λ w, ∀ ex, pc w = Crashed ex → is_Exception ex = false)).
  - done.
  - intros w Hw ex. by apply step_crash_only_base.
Qed.

(** *** Chunks *)

Lemma step_chunk_inv w : chunk_inv E w → chunk_inv E (step w).
Proof.
  unfold chunk_inv. step_cases w; intros [Hpc Hcalls]; split;
    try done; try (intros; simplify_eq; done);
    try (intros n' chunk' [= <- <-]; rewrite ?length_app; simpl;
         specialize (Hpc _ _ eq_refl); simpl in Hpc; lia);
    intros chunk' Hin; rewrite ?bulk_calls_app in Hin; simpl in Hin;
    rewrite ?app_nil_r in Hin; eauto;
    apply elem_of_app in Hin as [Hin|Hin]; eauto;
    apply list_elem_of_singleton in Hin; subst;
    specialize (Hpc _ _ eq_refl); simpl in *; lia.
Qed.

Lemma run_chunk_inv bt q n : chunk_inv E (run bt q n).
Proof.
  apply run_ind; [|apply step_chunk_inv].
  split; [done|]. simpl. intros chunk Hin. by apply elem_of_nil in Hin.
Qed.

(** *** The pending list *)

Lemma step_appended_before_yield w :
  appended_before_yield (trace w) → appended_before_yield (trace (step w)).
Proof.
  step_cases w; intros Htr; try done;
    try (by apply appended_before_yield_pull);
    repeat (apply appended_before_yield_other; [| try done]);
    intros p Hin; repeat (apply elem_of_cons in Hin as [Hin|Hin]; [done|]);
    by apply elem_of_nil in Hin.
Qed.

Lemma step_fifo_inv w : fifo_inv w → fifo_inv (step w).
Proof.
  unfold fifo_inv. step_cases w; intros Hinv; try done;
    rewrite ?app_assoc; rewrite ?current_cycle_app by no_new_cycle;
    rewrite ?pulls_app, ?pops_app; simpl;
    rewrite ?app_nil_r, ?Hinv, <- ?app_assoc; try done.
  - by rewrite current_cycle_snoc.
  - by rewrite app_nil_r.
Qed.

Lemma step_aligned w : one_result_per_action E → aligned w → aligned (step w).
Proof.
  unfold aligned. intros Hlen. step_cases w; intros Hinv; simplify_eq; try done;
    rewrite ?fmap_app; simpl in *; try done; try lia;
    try (by destruct al).
  match goal with H : es_bulk _ _ _ = _ |- _ => apply Hlen in H; rewrite H end.
  by rewrite <- Hinv, length_fmap.
Qed.

Lemma unacked_restart (al dq acked : list QueueMessage) :
  NoDup (al ++ dq) → (∀ m, m ∈ acked → m ∉ al ++ dq) →
  NoDup ([] ++ dq) ∧ ∀ m, m ∈ acked → m ∉ [] ++ dq.
Proof.
  intros Hnd Hacked. apply NoDup_app in Hnd as (_ & _ & Hnd). split; [done|].
  intros m Hm Hin. apply (Hacked m Hm), elem_of_app. by right.
Qed.

Lemma unacked_pull (al dq acked : list QueueMessage) msg :
  NoDup (al ++ msg :: dq) → (∀ m, m ∈ acked → m ∉ al ++ msg :: dq) →
  NoDup ((al ++ [msg]) ++ dq) ∧ ∀ m, m ∈ acked → m ∉ (al ++ [msg]) ++ dq.
Proof. by rewrite <- app_assoc. Qed.

Lemma unacked_pop (rest dq acked : list QueueMessage) msg evs :
  NoDup ((msg :: rest) ++ dq) → (∀ m, m ∈ acked → m ∉ (msg :: rest) ++ dq) →
  evs = [] ∨ evs = [msg] →
  NoDup (rest ++ dq) ∧ ∀ m, m ∈ acked ++ evs → m ∉ rest ++ dq.
Proof.
  intros Hnd Hacked Hevs. apply NoDup_cons in Hnd as [Hmsg Hnd]. split; [done|].
  intros m Hm Hin. apply elem_of_app in Hm as [Hm|Hm].
  - apply (Hacked m Hm). by right.
  - destruct Hevs as [-> | ->]; [by apply elem_of_nil in Hm|].
    apply list_elem_of_singleton in Hm as ->. done.
Qed.

Lemma step_unacked_inv w : unacked_inv w → unacked_inv (step w).
Proof.
  unfold unacked_inv.
  step_cases w; intros [Hnd Hacks]; cbn [deliveries omap list_omap] in *;
    rewrite ?acks_app; cbn [acks omap list_omap]; rewrite ?app_nil_r;
    try done;
    try (by apply unacked_pull);
    try (by eapply unacked_restart);
    try (by eapply unacked_pop; eauto);
    try (rewrite <- (app_nil_r (acks tr)); by eapply unacked_pop; eauto).
  by rewrite app_nil_r in Hnd, Hacks.
Qed.

Lemma run_unacked_inv bt q n : NoDup (deliveries q) → unacked_inv (run bt q n).
Proof.
  intros Hnd. apply run_ind; [|apply step_unacked_inv].
  split; [done|]. intros m Hm. by apply elem_of_nil in Hm.
Qed.

Lemma run_fifo_inv bt q n : fifo_inv (run bt q n).
Proof. apply run_ind; [done|apply step_fifo_inv]. Qed.

Lemma run_aligned bt q n : one_result_per_action E → aligned (run bt q n).
Proof. intros Hlen. apply run_ind; [done|]. intros w. by apply step_aligned. Qed.

Lemma run_appended_before_yield bt q n : appended_before_yield (trace (run bt q n)).
Proof.
  apply (run_ind (λ w, appended_before_yield (trace w)));
    [apply appended_before_yield_nil|apply step_appended_before_yield].
Qed.

(** *** The walk over the results of one chunk *)

Lemma step_send w chunk results :
  pc w = Pulling 0 chunk → chunk ≠ [] →
  es_bulk E (length (bulk_calls (trace w))) chunk = BulkResponse results →
  step w = {| pc := Yielding results; ack_list := ack_list w;
              simple_queue := simple_queue w; bulk_timeout := bulk_timeout w;
              trace := trace w ++ [EvBulk chunk] |}.
Proof.
  destruct w as [c al q bt tr]; simpl. intros -> Hne Hbulk.
  destruct chunk as [|a chunk]; [done|].
  unfold flush_to_es_step, streaming_bulk_send; simpl. by rewrite Hbulk.
Qed.

Lemma step_walk w ok results m rest :
  pc w = Yielding (ok :: results) → ack_list w = m :: rest →
  msg_ack E m = None →
  step w = {| pc := Yielding results; ack_list := rest;
              simple_queue := simple_queue w; bulk_timeout := bulk_timeout w;
              trace := trace w ++ EvPop m ok :: (if ok then [EvAck m] else []) |}.
Proof.
  destruct w as [c al q bt tr]; simpl. intros -> -> Hack.
  unfold flush_to_es_step; simpl. rewrite Hack. by destruct ok.
Qed.

Lemma walk_chunk results : ∀ w ms rest,
  pc w = Yielding results → ack_list w = ms ++ rest →
  length ms = length results →
  Forall (λ m, msg_ack E m = None) ms →
  Nat.iter (length results) step w =
    {| pc := Yielding []; ack_list := rest;
       simple_queue := simple_queue w; bulk_timeout := bulk_timeout w;
       trace := trace w ++ walk_events ms results |}.
Proof.
  induction results as [|ok results IH]; intros w ms rest Hpc Hal Hlen Hack.
  - destruct ms; [|done]. destruct w; simpl in *. subst. by rewrite app_nil_r.
  - destruct ms as [|m ms]; [done|]. apply Forall_cons in Hack as [Hm Hack].
    cbn [length]. rewrite Nat.iter_succ_r, (step_walk w ok results m (ms ++ rest)) by done.
    rewrite (IH _ ms rest) by (simpl in *; auto with lia). simpl.
    by rewrite <- app_assoc.
Qed.

(** *** Messages left behind by an interrupted cycle *)

Lemma step_abandoned m w : abandoned m w → abandoned m (step w).
Proof.
  unfold abandoned.
  step_cases w; intros (Hacks & Hq & Hal); cbn [deliveries omap list_omap] in *;
    rewrite ?acks_app; cbn [acks omap list_omap]; rewrite ?app_nil_r;
    destruct Hal as [Hal|[[ex' Hal]|Hal]]; simplify_eq;
    repeat split; try done; eauto;
    try apply not_elem_of_cons in Hq as [Hne Hq];
    try apply not_elem_of_cons in Hal as [Hne' Hal];
    try done;
    try (right; right);
    rewrite ?not_elem_of_app, ?not_elem_of_cons;
    repeat split; try done; try apply not_elem_of_nil.
Qed.

Lemma run_abandoned m bt q n k :
  abandoned m (run bt q n) → abandoned m (run bt q (k + n)).
Proof.
  intros Hn. induction k as [|k IH]; [done|].
  change (S k + n) with (S (k + n)). rewrite run_S. by apply step_abandoned.
Qed.

(** *** Acknowledgments stay inside their cycle *)

Lemma acked_in_cycle_other cc evs :
  (∀ m, EvAck m ∉ evs) → acked_in_cycle cc → acked_in_cycle (cc ++ evs).
Proof.
  intros Hno Hcc m Hm. apply elem_of_app in Hm as [Hm|Hm]; [|by destruct (Hno m)].
  destruct (Hcc m Hm). split; apply elem_of_app; by left.
Qed.

Lemma pulled_in_cycle cc m : m ∈ pulls cc → EvAppend m ∈ cc.
Proof.
  intros Hm. apply list_elem_of_omap in Hm as (e & He & Hf).
  destruct e; simplify_eq. done.
Qed.

Lemma acked_in_cycle_ack cc msg :
  msg ∈ pulls cc → acked_in_cycle cc →
  acked_in_cycle (cc ++ [EvPop msg true; EvAck msg]).
Proof.
  intros Hpulled Hcc m Hm. apply elem_of_app in Hm as [Hm|Hm].
  - destruct (Hcc m Hm). split; apply elem_of_app; by left.
  - apply elem_of_cons in Hm as [Hm|Hm]; [done|].
    apply list_elem_of_singleton in Hm as [= ->]. split; apply elem_of_app.
    + right. by left.
    + left. by apply pulled_in_cycle.
Qed.

Ltac no_ack :=
  let Hin := fresh "Hin" in
  intros ? Hin;
  repeat (apply elem_of_cons in Hin as [Hin|Hin]; [discriminate Hin|]);
  by apply elem_of_nil in Hin.

Lemma step_cycle_inv w : cycle_inv w → cycle_inv (step w).
Proof.
  intros [Hfifo Hcc]. split; [by apply step_fifo_inv|].
  revert Hfifo Hcc. unfold fifo_inv.
  step_cases w; intros Hfifo Hcc; try done;
    rewrite ?app_assoc; rewrite ?current_cycle_app by no_new_cycle;
    rewrite <- ?app_assoc;
    try (repeat (apply acked_in_cycle_other; [no_ack|]); done).
  - rewrite current_cycle_snoc. intros m Hm. by apply elem_of_nil in Hm.
  - apply acked_in_cycle_ack; [|done]. rewrite Hfifo.
    apply elem_of_app. right. by left.
Qed.

Lemma run_cycle_inv bt q n : cycle_inv (run bt q n).
Proof.
  apply run_ind; [|apply step_cycle_inv].
  split; [done|]. intros m Hm. by apply elem_of_nil in Hm.
Qed.

(** *** The claims about the flush loop *)

Lemma elem_of_successes ms results m :
  m ∈ successes ms results ↔ ∃ i, ms !! i = Some m ∧ results !! i = Some true.
Proof.
  revert ms. induction results as [|ok results IH]; intros [|m0 ms]; simpl.
  - rewrite elem_of_nil. split; [done|]. by intros (i & ? & ?).
  - rewrite elem_of_nil. split; [done|]. by intros (i & ? & ?).
  - rewrite elem_of_nil. split; [done|]. by intros (i & ? & ?).
  - rewrite elem_of_app, IH. split.
    + intros [Hm|(i & Hi & Hr)]; [|by exists (S i)].
      destruct ok; [|by apply elem_of_nil in Hm].
      apply list_elem_of_singleton in Hm as ->. by exists 0.
    + intros ([|i] & Hi & Hr); simpl in *; simplify_eq; [left; by left|right; eauto].
Qed.

(** The whole of one chunk: the request, then the walk over its results. *)
Lemma send_and_walk w chunk results :
  pc w = Pulling 0 chunk → chunk ≠ [] →
  es_bulk E (length (bulk_calls (trace w))) chunk = BulkResponse results →
  length (ack_list w) = length results →
  Forall (λ m, msg_ack E m = None) (ack_list w) →
  Nat.iter (S (length results)) step w =
    {| pc := Yielding []; ack_list := [];
       simple_queue := simple_queue w; bulk_timeout := bulk_timeout w;
       trace := trace w ++ EvBulk chunk :: walk_events (ack_list w) results |}.
Proof.
  intros Hpc Hne Hbulk Hlen Hack.
  rewrite Nat.iter_succ_r, (step_send w chunk results) by done.
  rewrite (walk_chunk results _ (ack_list w) []); simpl; rewrite ?app_nil_r; try done.
  by rewrite <- app_assoc.
Qed.

(** C1: for every chunk a worker submits, the loop walks the results of
    the backend in order and pops the oldest pending message for each of
    them; the message is acknowledged if and only if its result is a
    success.  (For A, B, C with results success, failure, success: A and C
    are acknowledged, B is not.) *)
Theorem C1_acks_exactly_the_successes bt q n chunk results :
  one_result_per_action E →
  pc (run bt q n) = Pulling 0 chunk → chunk ≠ [] →
  es_bulk E (length (bulk_calls (trace (run bt q n)))) chunk = BulkResponse results →
  Forall (λ m, msg_ack E m = None) (ack_list (run bt q n)) →
  let w := run bt q n in
  let w' := run bt q (S (length results) + n) in
  payload <$> ack_list w = chunk ∧
  trace w' = trace w ++ EvBulk chunk :: walk_events (ack_list w) results ∧
  pops (trace w') = pops (trace w) ++ ack_list w ∧
  acks (trace w') = acks (trace w) ++ successes (ack_list w) results ∧
  (∀ m, m ∈ successes (ack_list w) results ↔
        ∃ i, ack_list w !! i = Some m ∧ results !! i = Some true) ∧
  ack_list w' = [].
Proof.
  intros Hlen Hpc Hne Hbulk Hack w w'.
  pose proof (run_aligned bt q n Hlen) as Hal. unfold aligned in Hal.
  fold w in Hpc, Hbulk, Hack, Hal. rewrite Hpc in Hal.
  assert (length (ack_list w) = length results) as Hlens.
  { rewrite (Hlen _ _ _ Hbulk), <- Hal. by rewrite length_fmap. }
  assert (w' = Nat.iter (S (length results)) step w) as ->
    by apply run_add.
  rewrite (send_and_walk w chunk results) by done. cbn [trace ack_list].
  split_and!; try done.
  - rewrite pops_app. cbn [pops omap list_omap]. fold (pops (walk_events (ack_list w) results)).
    by rewrite pops_walk_events.
  - rewrite acks_app. cbn [acks omap list_omap]. fold (acks (walk_events (ack_list w) results)).
    by rewrite acks_walk_events.
  - intros m. apply elem_of_successes.
Qed.

(** C2, as the code has it: the acknowledgments of a chunk m1, m2, m3 are
    issued in that order, each one exactly when the result at its own
    position is a success; a failure at position 2 leaves m2
    unacknowledged and does not touch m3. *)
Theorem C2_failure_leaves_only_its_own_entry bt q n m1 m2 m3 r1 r2 r3 :
  pc (run bt q n) = Pulling 0 (payload <$> [m1; m2; m3]) →
  ack_list (run bt q n) = [m1; m2; m3] →
  es_bulk E (length (bulk_calls (trace (run bt q n)))) (payload <$> [m1; m2; m3])
    = BulkResponse [r1; r2; r3] →
  msg_ack E m1 = None → msg_ack E m2 = None → msg_ack E m3 = None →
  acks (trace (run bt q (4 + n))) =
    acks (trace (run bt q n)) ++
      (if r1 then [m1] else []) ++ (if r2 then [m2] else []) ++
      (if r3 then [m3] else []).
Proof.
  intros Hpc Hal Hbulk H1 H2 H3.
  change (4 + n) with (S (length [r1; r2; r3]) + n). rewrite run_add.
  rewrite (send_and_walk (run bt q n) _ [r1; r2; r3] Hpc) by
    (try done; rewrite Hal; try done; by repeat constructor).
  cbn [trace]. rewrite acks_app, Hal. f_equal.
  by destruct r1, r2, r3.
Qed.

(** C3: a pulled message is appended to the pending list before its
    payload is handed on, and at every point of a run the pending list is
    the FIFO of the messages pulled in the cycle and not yet walked, in pull
    order: it matches the chunk in flight position by position, lines up
    with the results still to come, and holds no acknowledged message. *)
Theorem C3_pending_list_mirrors_pull_order bt q n :
  one_result_per_action E → NoDup (deliveries q) →
  let w := run bt q n in
  appended_before_yield (trace w) ∧
  pulls (current_cycle (trace w)) = pops (current_cycle (trace w)) ++ ack_list w ∧
  (∀ k chunk, pc w = Pulling k chunk → payload <$> ack_list w = chunk) ∧
  (∀ results, pc w = Yielding results → length (ack_list w) = length results) ∧
  (∀ m, m ∈ ack_list w → m ∉ acks (trace w)).
Proof.
  intros Hlen Hnd w. split_and!.
  - apply run_appended_before_yield.
  - apply run_fifo_inv.
  - intros k chunk Hpc. pose proof (run_aligned bt q n Hlen) as Hal.
    unfold aligned in Hal. fold w in Hal. by rewrite Hpc in Hal.
  - intros results Hpc. pose proof (run_aligned bt q n Hlen) as Hal.
    unfold aligned in Hal. fold w in Hal. by rewrite Hpc in Hal.
  - intros m Hm Hacked. destruct (run_unacked_inv bt q n Hnd) as [_ Hun].
    apply (Hun m Hacked), elem_of_app. by left.
Qed.

(** C4: an exception met inside the cycle (by the pull, by the bulk
    request, by the pop or by the acknowledgment) is caught and logged, and
    the loop starts a new cycle with a new pending list and stream; a run
    never ends on such an exception: what leaves [flush_to_es] is not an
    [Exception]. *)
Theorem C4_exceptions_restart_the_cycle bt q :
  (∀ w ex, raised E w = Some ex → is_Exception ex = true →
     pc (step w) = Restart ∧
     logged (trace (step w)) = logged (trace w) ++ [ex] ∧
     fresh_cycle E (step (step w)) ∧
     trace (step (step w)) = trace (step w) ++ [EvNewCycle]) ∧
  (∀ n ex, pc (run bt q n) = Crashed ex → is_Exception ex = false).
Proof.
  split.
  - intros w ex Hr Hex. destruct (step_raised w ex Hr Hex) as [Hpc Hlog].
    destruct (step_restart (step w) Hpc) as (Hfresh & Htr & _). done.
  - intros n ex. apply run_crash_only_base.
Qed.

(** C5, as the code has it: a pull that times out appends nothing, yields
    nothing and sends no bulk request; the timeout is an exception like any
    other for the loop, which logs it, leaves the pending list of the cycle
    behind and starts a new cycle whose pulls go on with the queue. *)
Theorem C5_timeout_restarts_the_cycle w k chunk q' :
  pc w = Pulling (S k) chunk → simple_queue w = GetRaises Empty :: q' →
  let w1 := step w in
  let w2 := step w1 in
  trace w1 = trace w ++ [EvLog Empty] ∧ ack_list w1 = ack_list w ∧
  pc w1 = Restart ∧
  trace w2 = trace w1 ++ [EvNewCycle] ∧ fresh_cycle E w2 ∧
  simple_queue w2 = q'.
Proof.
  destruct w as [c al q bt tr]; simpl. intros -> ->. by unfold fresh_cycle.
Qed.

(** What an interrupted step leaves on the pending list is abandoned. *)
Lemma raised_abandons w ex m :
  unacked_inv w → raised E w = Some ex → m ∈ ack_list w → abandoned m (step w).
Proof.
  unfold unacked_inv, abandoned, raised.
  step_cases w; intros [Hnd Hacks] Hr Hm; simplify_eq;
    cbn [deliveries omap list_omap] in *;
    rewrite ?acks_app; cbn [acks omap list_omap]; rewrite ?app_nil_r;
    apply NoDup_app in Hnd as (_ & Hdisj & _);
    (split_and!;
      [ intros Hacked; apply (Hacks m Hacked), elem_of_app; by left
      | by apply Hdisj
      | eauto ]).
Qed.

(** C10: when an exception interrupts a cycle, the messages then on the
    pending list are never acknowledged afterwards; the next cycle starts
    from a new, empty list; and every acknowledgment in a cycle is of a
    message pulled in that same cycle for which a success result was
    walked. *)
Theorem C10_interrupted_cycle_abandons_its_pending bt q n ex :
  NoDup (deliveries q) →
  raised E (run bt q n) = Some ex →
  (∀ m, m ∈ ack_list (run bt q n) →
        ∀ k, m ∉ acks (trace (run bt q (k + S n)))) ∧
  (is_Exception ex = true → fresh_cycle E (run bt q (2 + n))) ∧
  (∀ n' m, EvAck m ∈ current_cycle (trace (run bt q n')) →
           EvPop m true ∈ current_cycle (trace (run bt q n')) ∧
           EvAppend m ∈ current_cycle (trace (run bt q n'))).
Proof.
  intros Hnd Hr. split_and!.
  - intros m Hm k.
    pose proof (raised_abandons _ ex m (run_unacked_inv bt q n Hnd) Hr Hm) as Hab.
    rewrite <- run_S in Hab.
    destruct (run_abandoned m bt q (S n) k Hab) as [Hnot _]. exact Hnot.
  - intros Hex. destruct (step_raised _ ex Hr Hex) as [Hpc _].
    by destruct (step_restart _ Hpc).
  - intros n' m. destruct (run_cycle_inv bt q n') as [_ Hcc]. apply Hcc.
Qed.

(** Every bulk request of a run carries exactly [BULK_SIZE] payloads, the
    constant of the module. *)
Lemma run_bulk_calls_size bt q n chunk :
  chunk ∈ bulk_calls (trace (run bt q n)) → length chunk = BULK_SIZE E.
Proof. destruct (run_chunk_inv bt q n) as [_ Hcalls]. apply Hcalls. Qed.

End Worker.

(** * Properties of the pool *)

Lemma start_installs_nothing b installed queues :
  handlers (start b installed queues) = installed.
Proof. unfold start. by destruct (self_concurrency b). Qed.

(** Whatever [bulk_size] the bulker was built with, the requests of its
    workers carry [BULK_SIZE] payloads. *)
Lemma pool_bulk_calls_size E b installed queues steps w chunk :
  w ∈ pool_workers (pool_run E steps (start b installed queues)) →
  chunk ∈ bulk_calls (trace w) → length chunk = BULK_SIZE E.
Proof.
  unfold pool_run, start. destruct (self_concurrency b) as [|c]; cbn [pool_workers].
  { intros Hw. by apply elem_of_nil in Hw. }
  rewrite <- list_fmap_compose.
  intros Hw. apply list_elem_of_fmap in Hw as (i & -> & _).
  apply (run_bulk_calls_size E (self_bulk_timeout b) (queues i) steps).
Qed.

(** * The claims about the encoder *)

(** C6, as the code has it: the task fails at the encode and publish step
    exactly when a required field is missing (a failed lookup: [KeyError] or
    [TypeError]) or a call to the broker fails (the step does I/O); the
    failure is caught inside the task, its exception is logged, and the
    handler calls [put_message.retry()]: the task is retried, and the failed
    run leaves the queue as it was. *)
Theorem C6_failed_encode_is_logged_and_retried E message w :
  ((put_message E message w).1 ≠ TaskDone ↔
     required_fields message = None ∨ broker_up (broker w) = false) ∧
  ((put_message E message w).1 ≠ TaskDone →
     (put_message E message w).1 = TaskRetry ∧
     broker (put_message E message w).2 = broker w ∧
     ∃ ex, log (put_message E message w).2 = log w ++ [ex] ∧
           (required_fields message = None → ex = KeyError ∨ ex = TypeError) ∧
           (required_fields message ≠ None → ex = ConnectionLost)).
Proof.
  destruct (required_fields message) as [[tenant pattern]|] eqn:Hreq.
  - rewrite (put_message_fields E _ w _ _ Hreq).
    destruct (broker_up (broker w)) eqn:Hup.
    + rewrite _queue_index_request_up by done. cbn. split; [|done].
      split; [done|]. by intros [?|?].
    + destruct (_queue_index_request_down E tenant pattern message (TTL E) w Hup)
        as (n & Hn & ->). unfold put_message_except. cbn. split.
      * split; [by right|done].
      * intros _. split_and!; [done|done|]. exists ConnectionLost. by split_and!.
  - destruct (put_message_no_fields E message w Hreq) as (ex & Hex & ->). cbn. split.
    + split; [by left|done].
    + intros _. split_and!; [done|done|]. exists ex. by split_and!.
Qed.

(** C7: for a document with both required fields, the task publishes an
    action with exactly the fields _index, _type, _id, _ttl and _source:
    the tenant, the correlation pattern, the token drawn for this call, the
    configured TTL and the document itself; and, tokens being unique, the
    actions published by any sequence of tasks carry pairwise distinct
    [_id]s. *)
Theorem C7_index_action_fields E message tenant pattern w messages w0 :
  Inj (=) (=) (uuid4 E) →
  required_fields message = Some (tenant, pattern) →
  broker_up (broker w) = true →
  es_queue (broker w0) = [] → uuid_calls w0 = 0 →
  (∃ a : gmap string json,
     put_message E message w =
       (TaskDone, {| broker := publish (JDict a) (broker w);
                     uuid_calls := S (uuid_calls w); log := log w |}) ∧
     dom a = {[ "_index"; "_type"; "_id"; "_ttl"; "_source" ]} ∧
     a !! "_index" = Some tenant ∧ a !! "_type" = Some pattern ∧
     a !! "_id" = Some (JStr (uuid4 E (uuid_calls w))) ∧
     a !! "_ttl" = Some (TTL E) ∧ a !! "_source" = Some message) ∧
  NoDup (omap action_id (es_queue (broker (put_messages E messages w0)))).
Proof.
  intros Hinj Hreq Hup Hq0 Hn0. split.
  - rewrite (put_message_fields E _ w _ _ Hreq), _queue_index_request_up by done.
    eexists. split; [reflexivity|].
    split_and!; done.
  - destruct (put_messages_ids E messages w0) as (l & -> & Hnd & _).
    { exists []. rewrite Hq0. split_and!; [done|apply NoDup_nil_2|apply Forall_nil_2]. }
    apply NoDup_fmap_2; [|done]. intros i j [= Hij]. by apply Hinj.
Qed.

(** * The claims at concrete inputs *)

Lemma sink_one_result_per_action size answer :
  (∀ chunk, length (answer chunk) = length chunk) →
  one_result_per_action (sink size answer).
Proof. intros Hlen k chunk results [= <-]. apply Hlen. Qed.

Lemma B_fails_length chunk : length (B_fails chunk) = length chunk.
Proof. unfold B_fails. by rewrite length_fmap, length_seq. Qed.

Lemma all_ok_length chunk : length (all_ok chunk) = length chunk.
Proof. unfold all_ok. by rewrite length_fmap. Qed.

Lemma queue_ABC_distinct : NoDup (deliveries queue_ABC).
Proof.
  apply (NoDup_fmap_1 delivery_tag). cbn. apply NoDup_ListNoDup.
  repeat constructor; cbn; lia.
Qed.

Lemma queue_timeout_distinct : NoDup (deliveries queue_timeout).
Proof.
  apply (NoDup_fmap_1 delivery_tag). cbn. apply NoDup_ListNoDup.
  repeat constructor; cbn; lia.
Qed.

(** C1 at A, B, C with results success, failure, success: A and C are
    acknowledged and leave the durable queue, B stays. *)
Lemma C1_witness :
  one_result_per_action (sink 3 B_fails) ∧
  pc (flush_to_es (sink 3 B_fails) 5 queue_ABC 4)
    = Pulling 0 (payload <$> [msgA; msgB; msgC]) ∧
  acks (trace (flush_to_es (sink 3 B_fails) 5 queue_ABC 8)) = [msgA; msgC] ∧
  durable_queue [msgA; msgB; msgC] (trace (flush_to_es (sink 3 B_fails) 5 queue_ABC 8))
    = [msgB].
Proof.
  pose proof (sink_one_result_per_action 3 B_fails B_fails_length) as Hlen.
  destruct (C1_acks_exactly_the_successes (sink 3 B_fails) 5 queue_ABC 4
              (payload <$> [msgA; msgB; msgC]) [true; false; true] Hlen)
    as (_ & _ & _ & Hacks & _ & _);
    [reflexivity|discriminate|reflexivity|by repeat constructor|].
  split_and!; [exact Hlen|reflexivity|exact Hacks|].
  unfold durable_queue. cbn [length Nat.add] in Hacks. rewrite Hacks. reflexivity.
Defined.

(** The claim C2 fails where B fails and C succeeds: C is acknowledged. *)
Lemma C2_counterexample :
  B_fails (payload <$> [msgA; msgB; msgC]) !! 1 = Some false ∧
  ¬ (∀ m, m ∈ [msgB; msgC] →
          m ∉ acks (trace (flush_to_es (sink 3 B_fails) 5 queue_ABC 8))).
Proof.
  split; [reflexivity|]. intros Hclaim.
  apply (Hclaim msgC); [right; left|].
  change (acks (trace (flush_to_es (sink 3 B_fails) 5 queue_ABC 8)))
    with [msgA; msgC].
  right; left.
Qed.

Lemma C2_witness :
  acks (trace (flush_to_es (sink 3 B_fails) 5 queue_ABC 8)) = [msgA; msgC].
Proof.
  exact (C2_failure_leaves_only_its_own_entry (sink 3 B_fails) 5 queue_ABC 4
           msgA msgB msgC true false true
           eq_refl eq_refl eq_refl eq_refl eq_refl eq_refl).
Defined.

(** C3 in the middle of the walk of A, B, C: after the results of A and B,
    the pending list is [C], lined up with the one result to come. *)
Lemma C3_witness :
  one_result_per_action (sink 3 B_fails) ∧ NoDup (deliveries queue_ABC) ∧
  pc (flush_to_es (sink 3 B_fails) 5 queue_ABC 7) = Yielding [true] ∧
  ack_list (flush_to_es (sink 3 B_fails) 5 queue_ABC 7) = [msgC] ∧
  length (ack_list (flush_to_es (sink 3 B_fails) 5 queue_ABC 7)) = 1 ∧
  msgC ∉ acks (trace (flush_to_es (sink 3 B_fails) 5 queue_ABC 7)).
Proof.
  pose proof (sink_one_result_per_action 3 B_fails B_fails_length) as Hlen.
  destruct (C3_pending_list_mirrors_pull_order (sink 3 B_fails) 5 queue_ABC 7
              Hlen queue_ABC_distinct) as (_ & _ & _ & Hres & Hun).
  split_and!; [exact Hlen|exact queue_ABC_distinct|reflexivity|reflexivity| |].
  - exact (Hres [true] eq_refl).
  - apply Hun. left.
Defined.

(** C4 at a pull that times out after a first message. *)
Lemma C4_witness :
  raised (sink 2 all_ok) (flush_to_es (sink 2 all_ok) 5 queue_timeout 2) = Some Empty ∧
  is_Exception Empty = true ∧
  pc (flush_to_es (sink 2 all_ok) 5 queue_timeout 3) = Restart ∧
  logged (trace (flush_to_es (sink 2 all_ok) 5 queue_timeout 3)) = [Empty] ∧
  fresh_cycle (sink 2 all_ok) (flush_to_es (sink 2 all_ok) 5 queue_timeout 4).
Proof.
  destruct (C4_exceptions_restart_the_cycle (sink 2 all_ok) 5 queue_timeout)
    as [Hcatch _].
  destruct (Hcatch (flush_to_es (sink 2 all_ok) 5 queue_timeout 2) Empty
              eq_refl eq_refl) as (Hpc & Hlog & Hfresh & _).
  split_and!; [reflexivity|reflexivity|exact Hpc|exact Hlog|exact Hfresh].
Defined.

(** The claim C5 fails at a timeout after a first message: the timeout is
    logged as an exception, the loop is thrown back to its restart point
    and, once the queue goes on, the request that is sent carries B and C
    only: A, pulled before the timeout, is never submitted. *)
Lemma C5_counterexample :
  simple_queue (flush_to_es (sink 2 all_ok) 5 queue_timeout 2)
    = [GetRaises Empty; Delivered msgB; Delivered msgC] ∧
  ¬ timeout_is_silent (flush_to_es (sink 2 all_ok) 5 queue_timeout 2)
                      (flush_to_es (sink 2 all_ok) 5 queue_timeout 3) ∧
  logged (trace (flush_to_es (sink 2 all_ok) 5 queue_timeout 3)) = [Empty] ∧
  bulk_calls (trace (flush_to_es (sink 2 all_ok) 5 queue_timeout 12))
    = [[payload msgB; payload msgC]].
Proof.
  split_and!; [reflexivity| |reflexivity|reflexivity].
  intros (Hlog & _ & _). discriminate Hlog.
Qed.

Lemma C5_witness :
  pc (flush_to_es (sink 2 all_ok) 5 queue_timeout 2) = Pulling 1 [payload msgA] ∧
  trace (flush_to_es (sink 2 all_ok) 5 queue_timeout 3)
    = trace (flush_to_es (sink 2 all_ok) 5 queue_timeout 2) ++ [EvLog Empty] ∧
  ack_list (flush_to_es (sink 2 all_ok) 5 queue_timeout 3) = [msgA] ∧
  fresh_cycle (sink 2 all_ok) (flush_to_es (sink 2 all_ok) 5 queue_timeout 4) ∧
  simple_queue (flush_to_es (sink 2 all_ok) 5 queue_timeout 4)
    = [Delivered msgB; Delivered msgC].
Proof.
  destruct (C5_timeout_restarts_the_cycle (sink 2 all_ok)
              (flush_to_es (sink 2 all_ok) 5 queue_timeout 2)
              0 [payload msgA] [Delivered msgB; Delivered msgC] eq_refl eq_refl)
    as (Htr & Hal & _ & _ & Hfresh & Hq).
  split_and!; [reflexivity|exact Htr|exact Hal|exact Hfresh|exact Hq].
Defined.

(** C10 at the same run: A, on the pending list when the timeout strikes,
    is never acknowledged, however long the run goes on. *)
Lemma C10_witness :
  NoDup (deliveries queue_timeout) ∧
  raised (sink 2 all_ok) (flush_to_es (sink 2 all_ok) 5 queue_timeout 2) = Some Empty ∧
  msgA ∈ ack_list (flush_to_es (sink 2 all_ok) 5 queue_timeout 2) ∧
  (∀ k, msgA ∉ acks (trace (flush_to_es (sink 2 all_ok) 5 queue_timeout (k + 3)))) ∧
  fresh_cycle (sink 2 all_ok) (flush_to_es (sink 2 all_ok) 5 queue_timeout 4).
Proof.
  destruct (C10_interrupted_cycle_abandons_its_pending (sink 2 all_ok) 5
              queue_timeout 2 Empty queue_timeout_distinct eq_refl)
    as (Hnever & Hfresh & _).
  split_and!; [exact queue_timeout_distinct|reflexivity|left| |exact (Hfresh eq_refl)].
  apply Hnever. left.
Defined.

(** The claim C6 fails on a document with no tenant: the task asks for a
    retry and hands no error to its caller. *)
Lemma C6_counterexample :
  required_fields doc_no_tenant = None ∧
  put_message (sink 3 all_ok) doc_no_tenant world0
    = (TaskRetry, {| broker := broker world0; uuid_calls := 0; log := [KeyError] |}) ∧
  ¬ surfaced_without_retry (put_message (sink 3 all_ok) doc_no_tenant world0).1.
Proof.
  split_and!; [reflexivity|reflexivity|]. intros [ex Hex]. discriminate Hex.
Qed.

(** C6, as amended, on a well-formed document whose publish fails: the
    failure is logged, a retry is asked for, and the queue stays empty. *)
Lemma C6_witness :
  (put_message (sink 3 all_ok) (doc "t1" "apache") world_publish_fails).1 ≠ TaskDone ∧
  (put_message (sink 3 all_ok) (doc "t1" "apache") world_publish_fails).1 = TaskRetry ∧
  broker (put_message (sink 3 all_ok) (doc "t1" "apache") world_publish_fails).2
    = broker world_publish_fails ∧
  log (put_message (sink 3 all_ok) (doc "t1" "apache") world_publish_fails).2
    = [ConnectionLost].
Proof.
  destruct (C6_failed_encode_is_logged_and_retried (sink 3 all_ok)
              (doc "t1" "apache") world_publish_fails) as [Hiff Hfail].
  assert ((put_message (sink 3 all_ok) (doc "t1" "apache") world_publish_fails).1
            ≠ TaskDone) as Hne by (apply Hiff; by right).
  destruct (Hfail Hne) as (Hretry & Hbroker & _).
  split_and!; [exact Hne|exact Hretry|exact Hbroker|reflexivity].
Defined.

(** C7 on a well-formed document and on a batch of three. *)
Lemma C7_witness :
  required_fields (doc "t1" "apache") = Some (JStr "t1", JStr "apache") ∧
  (∃ a : gmap string json,
     es_queue (broker (put_message (sink 3 all_ok) (doc "t1" "apache") world0).2)
       = [JDict a] ∧
     dom a = {[ "_index"; "_type"; "_id"; "_ttl"; "_source" ]} ∧
     a !! "_index" = Some (JStr "t1") ∧ a !! "_type" = Some (JStr "apache") ∧
     a !! "_source" = Some (doc "t1" "apache")) ∧
  NoDup (omap action_id (es_queue (broker
    (put_messages (sink 3 all_ok)
       [doc "t1" "apache"; doc "t1" "apache"; doc "t2" "syslog"] world0)))).
Proof.
  destruct (C7_index_action_fields (sink 3 all_ok) (doc "t1" "apache")
              (JStr "t1") (JStr "apache") world0
              [doc "t1" "apache"; doc "t1" "apache"; doc "t2" "syslog"] world0
              pretty_nat_inj eq_refl eq_refl eq_refl eq_refl)
    as [(a & Hput & Hdom & Hindex & Htype & _ & _ & Hsource) Hnodup].
  split_and!; [reflexivity| |exact Hnodup].
  exists a. rewrite Hput. split_and!; [reflexivity|exact Hdom|exact Hindex|exact Htype|exact Hsource].
Defined.

(** C8 does not hold of the code: a bulker built with [bulk_size = 1] on a
    module whose [BULK_SIZE] is 2 starts a worker that sends a request of
    two payloads.  The stored [bulk_size] is never read. *)
Lemma C8_bulk_size_argument_is_ignored :
  let b := ElasticSearchStreamBulker_init (sink 2 all_ok) 4 (Some 1) None (Some 1) in
  self_bulk_size b = 1 ∧
  (bulk_calls ∘ trace) <$>
    pool_workers (pool_run (sink 2 all_ok) 6
                    (start b ∅ (λ _, [Delivered msgA; Delivered msgB])))
    = [[[payload msgA; payload msgB]]].
Proof. split; reflexivity. Qed.

(** C9 does not hold of the code: [start] installs no signal handler, so a
    termination signal ends the parent by its default disposition, with the
    pool neither closed nor joined and both workers still running; and the
    handler itself, were it run, would close the pool and then wait in
    [join] for workers that never leave their loop. *)
Lemma C9_signal_handler_is_never_installed :
  let b := ElasticSearchStreamBulker_init (sink 2 all_ok) 4 None None (Some 2) in
  let p := pool_run (sink 2 all_ok) 10 (start b ∅ (λ _, queue_ABC)) in
  handlers p = ∅ ∧
  main (deliver SIGTERM p) = Killed ∧
  pool_closed (deliver SIGTERM p) = false ∧
  runnable <$> pool_workers (deliver SIGTERM p) = [true; true] ∧
  main (signal_handler p) = InJoin.
Proof. split_and!; reflexivity. Qed.

(** * Further properties of the encoder *)

Section EncoderBatches.
Variable E : Sink.

(** What one task does on a reachable broker. *)
Lemma put_message_up message w :
  broker_up (broker w) = true →
  let w' := (put_message E message w).2 in
  broker_up (broker w') = true ∧
  omap action_source (es_queue (broker w')) =
    omap action_source (es_queue (broker w))
      ++ (if well_formed message then [message] else []) ∧
  length (es_queue (broker w')) =
    length (es_queue (broker w)) + (if well_formed message then 1 else 0) ∧
  uuid_calls w' = uuid_calls w + (if well_formed message then 1 else 0) ∧
  length (log w') = length (log w) + (if well_formed message then 0 else 1).
Proof.
  intros Hup. unfold well_formed.
  destruct (required_fields message) as [[tenant pattern]|] eqn:Hreq.
  - rewrite (put_message_fields E _ w _ _ Hreq), _queue_index_request_up by done.
    cbn [snd broker uuid_calls log].
    change (broker_up (publish ?a (broker w))) with (broker_up (broker w)).
    unfold publish. cbn [es_queue]. rewrite omap_app, length_app. cbn.
    split_and!; try done; lia.
  - destruct (put_message_no_fields E message w Hreq) as (ex & _ & ->). cbn.
    rewrite app_nil_r, length_app. cbn. split_and!; try done; lia.
Qed.

Lemma put_messages_cons message messages w :
  put_messages E (message :: messages) w
    = put_messages E messages (put_message E message w).2.
Proof. reflexivity. Qed.

(** X1: on a reachable broker a batch of tasks publishes the well-formed
    documents of the batch, each as the [_source] of one action, in the
    order of submission; every other document costs one log line and
    nothing else, and one token is drawn per published action. *)
Theorem X1_batch_publishes_well_formed_in_order messages w :
  broker_up (broker w) = true →
  let w' := put_messages E messages w in
  omap action_source (es_queue (broker w')) =
    omap action_source (es_queue (broker w)) ++ filter (λ m, well_formed m) messages ∧
  length (es_queue (broker w')) =
    length (es_queue (broker w)) + length (filter (λ m, well_formed m) messages) ∧
  uuid_calls w' = uuid_calls w + length (filter (λ m, well_formed m) messages) ∧
  length (log w') =
    length (log w) + length (filter (λ m, ¬ well_formed m) messages).
Proof.
  revert w. induction messages as [|message messages IH]; intros w Hup.
  - cbn. rewrite app_nil_r. split_and!; try done; lia.
  - cbn zeta. rewrite put_messages_cons.
    destruct (put_message_up message w Hup) as (Hup' & Hq & Hlen & Hn & Hlog).
    destruct (IH _ Hup') as (IH1 & IH2 & IH3 & IH4).
    rewrite IH1, IH2, IH3, IH4, Hq, Hlen, Hn, Hlog. clear IH IH1 IH2 IH3 IH4.
    destruct (well_formed message) eqn:Hwf.
    + rewrite !(filter_cons_True (λ m, Is_true (well_formed m))) by (by rewrite Hwf).
      rewrite (filter_cons_False (λ m, ¬ well_formed m))
        by (rewrite Hwf; intros H; exact (H I)).
      rewrite <- app_assoc. cbn. split_and!; try done; lia.
    + rewrite !(filter_cons_False (λ m, Is_true (well_formed m)))
        by (rewrite Hwf; intros H; exact H).
      rewrite (filter_cons_True (λ m, ¬ well_formed m))
        by (rewrite Hwf; intros H; exact H).
      rewrite app_nil_r. cbn. split_and!; try done; lia.
Qed.

Lemma put_message_consistent message w :
  Forall consistent_action (es_queue (broker w)) →
  Forall consistent_action (es_queue (broker (put_message E message w).2)).
Proof.
  intros Hq.
  destruct (required_fields message) as [[tenant pattern]|] eqn:Hreq.
  - rewrite (put_message_fields E _ w _ _ Hreq).
    destruct (broker_up (broker w)) eqn:Hup.
    + rewrite _queue_index_request_up by done. cbn.
      apply Forall_app. split; [exact Hq|]. apply Forall_singleton.
      eexists _, message, tenant, pattern. split; [reflexivity|]. by split_and!.
    + by destruct (_queue_index_request_down E tenant pattern message (TTL E) w Hup)
        as (n & Hn & ->).
  - destruct (put_message_no_fields E message w Hreq) as (ex & _ & ->). exact Hq.
Qed.

(** X2: every action a batch of tasks leaves in the queue agrees with its
    own payload: its [_index] and [_type] are the tenant and the
    correlation pattern that its [_source] carries. *)
Theorem X2_published_actions_agree_with_their_source messages w :
  Forall consistent_action (es_queue (broker w)) →
  Forall consistent_action (es_queue (broker (put_messages E messages w))).
Proof.
  revert w. induction messages as [|message messages IH]; intros w Hq; [exact Hq|].
  rewrite put_messages_cons. by apply IH, put_message_consistent.
Qed.

Lemma put_message_down message w :
  broker_up (broker w) = false →
  let w' := (put_message E message w).2 in
  broker w' = broker w ∧ length (log w') = S (length (log w)).
Proof.
  intros Hdown.
  destruct (required_fields message) as [[tenant pattern]|] eqn:Hreq.
  - rewrite (put_message_fields E _ w _ _ Hreq).
    destruct (_queue_index_request_down E tenant pattern message (TTL E) w Hdown)
      as (n & Hn & ->). unfold put_message_except. cbn.
    rewrite length_app. cbn. split; [done|lia].
  - destruct (put_message_no_fields E message w Hreq) as (ex & _ & ->). cbn.
    rewrite length_app. cbn. split; [done|lia].
Qed.

(** X3: while the broker cannot be reached no task of a batch publishes
    anything, whatever the documents are: the queue is as it was, and every
    task has logged one exception (and asked for its retry). *)
Theorem X3_unreachable_broker_publishes_nothing messages w :
  broker_up (broker w) = false →
  broker (put_messages E messages w) = broker w ∧
  length (log (put_messages E messages w)) = length (log w) + length messages ∧
  Forall (λ message, (put_message E message w).1 = TaskRetry) messages.
Proof.
  intros Hdown. split_and!.
  - revert w Hdown. induction messages as [|message messages IH]; intros w Hdown; [done|].
    rewrite put_messages_cons.
    destruct (put_message_down message w Hdown) as [Hb _].
    rewrite IH by (by rewrite Hb). exact Hb.
  - revert w Hdown. induction messages as [|message messages IH]; intros w Hdown.
    + cbn. lia.
    + rewrite put_messages_cons.
      destruct (put_message_down message w Hdown) as [Hb Hlog].
      rewrite IH by (by rewrite Hb). rewrite Hlog. cbn. lia.
  - apply Forall_forall. intros message _.
    destruct (required_fields message) as [[tenant pattern]|] eqn:Hreq.
    + rewrite (put_message_fields E _ w _ _ Hreq).
      by destruct (_queue_index_request_down E tenant pattern message (TTL E) w Hdown)
        as (n & Hn & ->).
    + by destruct (put_message_no_fields E message w Hreq) as (ex & _ & ->).
Qed.

End EncoderBatches.

(** * Further properties of the flush loop *)

Section WorkerRuns.
Variable E : Sink.

Local Abbreviation step := (flush_to_es_step E).
Local Abbreviation run := (flush_to_es E).

(** X4: every bulk request of a worker carries exactly [BULK_SIZE]
    payloads: a request is never empty (for a positive [BULK_SIZE]) and a
    chunk cut short by a timeout or an error is never sent. *)
Theorem X4_requests_are_full_chunks bt q n chunk :
  chunk ∈ bulk_calls (trace (run bt q n)) →
  length chunk = BULK_SIZE E ∧ (0 < BULK_SIZE E → chunk ≠ []).
Proof.
  intros Hin. destruct (run_chunk_inv E bt q n) as [_ Hcalls].
  pose proof (Hcalls chunk Hin) as Hlen. split; [done|].
  intros Hpos ->. simpl in Hlen. lia.
Qed.

Lemma step_pulls_in_order w :
  pulls (trace (step w)) ++ deliveries (simple_queue (step w))
    = pulls (trace w) ++ deliveries (simple_queue w).
Proof.
  step_cases w; cbn [deliveries omap list_omap];
    rewrite ?pulls_app; cbn [pulls omap list_omap];
    rewrite ?app_nil_r, <- ?app_assoc; done.
Qed.

Lemma run_pulls_in_order bt q n :
  pulls (trace (run bt q n)) ++ deliveries (simple_queue (run bt q n))
    = deliveries q.
Proof.
  induction n as [|n IH]; [done|]. rewrite run_S, step_pulls_in_order. exact IH.
Qed.

(** X5: a worker takes the messages of its queue in delivery order, one
    per pull, skipping none and taking none twice: what it has pulled,
    followed by what the queue still holds, is what the queue held at the
    start. *)
Theorem X5_pulls_follow_the_queue bt q n :
  pulls (trace (run bt q n)) ++ deliveries (simple_queue (run bt q n))
    = deliveries q.
Proof. apply run_pulls_in_order. Qed.

Lemma step_acks_of_pops w :
  acks (trace w) `sublist_of` pops (trace w) →
  acks (trace (step w)) `sublist_of` pops (trace (step w)).
Proof.
  step_cases w; intros Hs; rewrite ?acks_app, ?pops_app;
    cbn [acks pops omap list_omap]; rewrite ?app_nil_r; try done;
    first [ by apply sublist_app | by apply sublist_inserts_r ].
Qed.

Lemma step_pops_of_pulls w :
  pops (trace w) ++ ack_list w `sublist_of` pulls (trace w) →
  pops (trace (step w)) ++ ack_list (step w) `sublist_of` pulls (trace (step w)).
Proof.
  step_cases w; intros Hs; rewrite ?pulls_app, ?pops_app;
    cbn [pulls pops omap list_omap]; rewrite ?app_nil_r, <- ?app_assoc;
    cbn [app]; try done;
    try (rewrite app_assoc; by apply sublist_app);
    (etrans; [|exact Hs]); by apply sublist_inserts_r.
Qed.

(** X6: a worker acknowledges only messages it has pulled, in the order
    it pulled them, and, deliveries being distinct, each of them at most
    once. *)
Theorem X6_acks_are_pulled_once_and_in_order bt q n :
  NoDup (deliveries q) →
  acks (trace (run bt q n)) `sublist_of` pulls (trace (run bt q n)) ∧
  pulls (trace (run bt q n)) `sublist_of` deliveries q ∧
  NoDup (acks (trace (run bt q n))).
Proof.
  intros Hnd.
  assert (acks (trace (run bt q n)) `sublist_of` pulls (trace (run bt q n))) as Hap.
  { etrans.
    - apply (run_ind E (λ w, acks (trace w) `sublist_of` pops (trace w)));
        [done|apply step_acks_of_pops].
    - etrans; [apply sublist_inserts_r; reflexivity|].
      apply (run_ind E (λ w, pops (trace w) ++ ack_list w `sublist_of` pulls (trace w)));
        [done|apply step_pops_of_pulls]. }
  assert (pulls (trace (run bt q n)) `sublist_of` deliveries q) as Hpd.
  { rewrite <- (run_pulls_in_order bt q n). by apply sublist_inserts_r. }
  split_and!; [done|done|].
  eapply sublist_NoDup; [exact Hnd|]. etrans; [exact Hap|exact Hpd].
Qed.

Lemma submitted_app m tr evs : submitted m tr → submitted m (tr ++ evs).
Proof.
  intros (chunk & Hc & Hm). exists chunk. split; [|done].
  rewrite bulk_calls_app. apply elem_of_app. by left.
Qed.

Lemma submitted_now m tr chunk evs :
  payload m ∈ chunk → submitted m ((tr ++ [EvBulk chunk]) ++ evs).
Proof.
  intros Hm. apply submitted_app. exists chunk. split; [|done].
  rewrite bulk_calls_app. apply elem_of_app. right. left.
Qed.

Lemma step_submitted_inv w : submitted_inv w → submitted_inv (step w).
Proof.
  unfold submitted_inv.
  step_cases w; intros [Hack Hpc]; (split; [|try done]);
    try (intros m Hm; rewrite ?acks_app in Hm; cbn [acks omap list_omap] in Hm;
         rewrite ?app_nil_r in Hm).
  all: repeat match goal with
       | H : _ ∈ _ ++ _ |- _ => apply elem_of_app in H as [H|H]
       | H : _ ∈ [_] |- _ => apply list_elem_of_singleton in H; subst
       | H : _ ∈ [] |- _ => by apply elem_of_nil in H
       end.
  all: rewrite ?elem_of_app, ?list_elem_of_singleton.
  all: try solve [repeat apply submitted_app; apply Hack; done].
  all: try solve [repeat apply submitted_app; apply Hpc;
                  eauto using list_elem_of_here, list_elem_of_further].
  all: try solve [left; apply Hpc; done].
  all: try solve [right; right; reflexivity].
  all: try solve [destruct (Hpc m) as [Hs|Hs]; [done| |];
                  eauto using submitted_app, submitted_now].
  destruct (Hpc m) as [Hs|Hs]; [done|by apply submitted_app|].
  rewrite <- (app_nil_r (tr ++ _)). by apply submitted_now.
Qed.

Lemma run_submitted_inv bt q n : submitted_inv (run bt q n).
Proof.
  apply run_ind; [|apply step_submitted_inv].
  split; [|done]. intros m Hm. by apply elem_of_nil in Hm.
Qed.

(** X7: a worker acknowledges no message whose payload it has not sent to
    the backend: for every acknowledged message there is a bulk request of
    the run that carries its payload. *)
Theorem X7_acknowledged_means_submitted bt q n m :
  m ∈ acks (trace (run bt q n)) → submitted m (trace (run bt q n)).
Proof. destruct (run_submitted_inv bt q n) as [Hack _]. apply Hack. Qed.

Lemma step_requests_of_pulls w :
  concat (bulk_calls (trace w)) ++ in_flight w
    `sublist_of` payload <$> pulls (trace w) →
  concat (bulk_calls (trace (step w))) ++ in_flight (step w)
    `sublist_of` payload <$> pulls (trace (step w)).
Proof.
  unfold in_flight.
  step_cases w; intros Hs; rewrite ?bulk_calls_app, ?pulls_app;
    cbn [bulk_calls pulls omap list_omap]; rewrite ?concat_app, ?fmap_app;
    cbn [concat fmap list_fmap]; rewrite ?app_nil_r in *; try done;
    try (rewrite app_assoc; by apply sublist_app);
    try ((etrans; [|exact Hs]); by apply sublist_inserts_r).
Qed.

(** X8: the payloads a worker sends are payloads it has pulled, unchanged
    and in pull order: the requests of a run, laid end to end, are a
    subsequence of the payloads of the pulled messages. *)
Theorem X8_requests_carry_pulled_payloads_in_order bt q n :
  concat (bulk_calls (trace (run bt q n)))
    `sublist_of` payload <$> pulls (trace (run bt q n)).
Proof.
  etrans; [apply sublist_inserts_r; reflexivity|].
  apply (run_ind E (λ w, concat (bulk_calls (trace w)) ++ in_flight w
                           `sublist_of` payload <$> pulls (trace w)));
    [done|apply step_requests_of_pulls].
Qed.

Lemma step_new_cycles w :
  new_cycles (trace w)
    = length (logged (trace w)) + (match pc w with Restart => 0 | _ => 1 end) →
  new_cycles (trace (step w))
    = length (logged (trace (step w)))
      + (match pc (step w) with Restart => 0 | _ => 1 end).
Proof.
  unfold new_cycles.
  step_cases w; intros Hn; rewrite ?logged_app, ?omap_app, ?length_app;
    cbn [logged omap list_omap length]; try done; lia.
Qed.

(** X9: a worker begins a cycle (a new pending list, a new stream and
    connection) once at its start and once after each exception it has
    logged, and at no other time. *)
Theorem X9_one_cycle_per_logged_exception bt q n :
  new_cycles (trace (run bt q n))
    = length (logged (trace (run bt q n)))
      + (match pc (run bt q n) with Restart => 0 | _ => 1 end).
Proof.
  apply (run_ind E (λ w, new_cycles (trace w)
           = length (logged (trace w)) + (match pc w with Restart => 0 | _ => 1 end)));
    [done|apply step_new_cycles].
Qed.

(** *** Whole runs *)

Lemma pull_many ms : ∀ w k chunk q',
  pc w = Pulling (length ms + k) chunk →
  simple_queue w = (Delivered <$> ms) ++ q' →
  Nat.iter (length ms) step w =
    {| pc := Pulling k (chunk ++ (payload <$> ms)); ack_list := ack_list w ++ ms;
       simple_queue := q'; bulk_timeout := bulk_timeout w;
       trace := trace w ++ pull_events ms |}.
Proof.
  induction ms as [|m ms IH]; intros w k chunk q' Hpc Hq.
  - destruct w; cbn in *. subst. by rewrite !app_nil_r.
  - cbn [length]. rewrite Nat.iter_succ_r.
    destruct w as [c al q bt tr]; cbn in Hpc, Hq. subst c q.
    unfold flush_to_es_step at 2. cbn.
    rewrite (IH _ k (chunk ++ [payload m]) q') by done. cbn.
    by rewrite <- !app_assoc.
Qed.

Lemma walk_prefix results : ∀ w ms rest later,
  pc w = Yielding (results ++ later) → ack_list w = ms ++ rest →
  length ms = length results →
  Forall (λ m, msg_ack E m = None) ms →
  Nat.iter (length results) step w =
    {| pc := Yielding later; ack_list := rest;
       simple_queue := simple_queue w; bulk_timeout := bulk_timeout w;
       trace := trace w ++ walk_events ms results |}.
Proof.
  induction results as [|ok results IH]; intros w ms rest later Hpc Hal Hlen Hack.
  - destruct ms; [|done]. destruct w; simpl in *. subst. by rewrite app_nil_r.
  - destruct ms as [|m ms]; [done|]. apply Forall_cons in Hack as [Hm Hack].
    cbn [length]. rewrite Nat.iter_succ_r,
      (step_walk E w ok (results ++ later) m (ms ++ rest)) by done.
    rewrite (IH _ ms rest later) by (simpl in *; auto with lia). simpl.
    by rewrite <- app_assoc.
Qed.

(** X10: with [BULK_SIZE] zero the bulker returns at once and the inner
    loop spins: the worker never pulls a message, never sends a request and
    never acknowledges anything, whatever the queue holds. *)
Theorem X10_zero_bulk_size_spins bt q n :
  BULK_SIZE E = 0 →
  flush_to_es E bt q (2 + n) =
    {| pc := Exhausted; ack_list := []; simple_queue := q;
       bulk_timeout := bt; trace := [EvNewCycle] |}.
Proof.
  intros Hz. induction n as [|n IH].
  - unfold flush_to_es. cbn. by rewrite Hz.
  - change (2 + S n) with (S (2 + n)). by rewrite run_S, IH.
Qed.

Lemma bulk_calls_pull_events ms : bulk_calls (pull_events ms) = [].
Proof. induction ms as [|m ms IH]; [done|]. exact IH. Qed.

Lemma acks_pull_events ms : acks (pull_events ms) = [].
Proof. induction ms as [|m ms IH]; [done|]. exact IH. Qed.

Lemma logged_pull_events ms : logged (pull_events ms) = [].
Proof. induction ms as [|m ms IH]; [done|]. exact IH. Qed.

(** The first cycle of a worker that finds [ms] at the head of its queue,
    with room for them in the chunk. *)
Lemma run_pulls bt ms q' k :
  BULK_SIZE E = length ms + k →
  run bt ((Delivered <$> ms) ++ q') (length ms + 1) =
    {| pc := Pulling k (payload <$> ms); ack_list := ms;
       simple_queue := q'; bulk_timeout := bt;
       trace := EvNewCycle :: pull_events ms |}.
Proof.
  intros Hk. rewrite run_add.
  rewrite (pull_many ms _ k [] q'); [done| |done].
  unfold flush_to_es. cbn. by rewrite Hk.
Qed.

(** X11: a chunk that a timeout cuts short is never sent.  When fewer than
    [BULK_SIZE] messages arrive before a pull times out, the timeout is
    logged, no request goes out, and the messages pulled so far are left on
    the discarded pending list: the worker never acknowledges them. *)
Theorem X11_timeout_discards_a_partial_chunk bt ms q' :
  length ms < BULK_SIZE E →
  NoDup (deliveries ((Delivered <$> ms) ++ GetRaises Empty :: q')) →
  let q := (Delivered <$> ms) ++ GetRaises Empty :: q' in
  run bt q (length ms + 2) =
    {| pc := Restart; ack_list := ms; simple_queue := q'; bulk_timeout := bt;
       trace := EvNewCycle :: pull_events ms ++ [EvLog Empty] |} ∧
  bulk_calls (trace (run bt q (length ms + 2))) = [] ∧
  (∀ k m, m ∈ ms → m ∉ acks (trace (run bt q (k + (length ms + 2))))).
Proof.
  intros Hlt Hnd q.
  assert (BULK_SIZE E = length ms + S (BULK_SIZE E - length ms - 1)) as Hk by lia.
  pose proof (run_pulls bt ms (GetRaises Empty :: q') _ Hk) as Hrun. fold q in Hrun.
  assert (run bt q (length ms + 2) =
    {| pc := Restart; ack_list := ms; simple_queue := q'; bulk_timeout := bt;
       trace := EvNewCycle :: pull_events ms ++ [EvLog Empty] |}) as Hrun2.
  { replace (length ms + 2) with (S (length ms + 1)) by lia.
    by rewrite run_S, Hrun. }
  split_and!; [exact Hrun2| |].
  - rewrite Hrun2. cbn [trace].
    change (bulk_calls ([EvNewCycle] ++ pull_events ms ++ [EvLog Empty]) = []).
    by rewrite !bulk_calls_app, bulk_calls_pull_events.
  - intros k m Hm.
    assert (abandoned m (run bt q (S (length ms + 1)))) as Hab.
    { rewrite run_S. apply (raised_abandons E _ Empty).
      - by apply run_unacked_inv.
      - by rewrite Hrun.
      - by rewrite Hrun. }
    replace (k + (length ms + 2)) with (k + S (length ms + 1)) by lia.
    destruct (run_abandoned E m bt q _ k Hab) as [Hnot _]. exact Hnot.
Qed.

Lemma successes_all ms results :
  length results = length ms → Forall (λ r, r = true) results →
  successes ms results = ms.
Proof.
  revert ms. induction results as [|ok results IH]; intros [|m ms] Hlen Hall; try done.
  apply Forall_cons in Hall as [-> Hall]. cbn. f_equal. apply IH; [|done].
  cbn in Hlen. lia.
Qed.

(** X12: a full chunk, end to end.  A worker that finds [BULK_SIZE]
    messages in its queue pulls them in order, sends their payloads as one
    request and walks the answer: it acknowledges exactly the messages whose
    result is a success, in pull order, and is left with an empty pending
    list; when the backend accepts everything, every message is
    acknowledged. *)
Theorem X12_full_chunk_is_flushed_and_acknowledged bt ms q' results :
  ms ≠ [] → BULK_SIZE E = length ms →
  es_bulk E 0 (payload <$> ms) = BulkResponse results →
  length results = length ms →
  Forall (λ m, msg_ack E m = None) ms →
  let w := run bt ((Delivered <$> ms) ++ q') (S (length results) + (length ms + 1)) in
  w = {| pc := Yielding []; ack_list := []; simple_queue := q'; bulk_timeout := bt;
         trace := EvNewCycle :: pull_events ms ++
                  EvBulk (payload <$> ms) :: walk_events ms results |} ∧
  acks (trace w) = successes ms results ∧
  (Forall (λ r, r = true) results → acks (trace w) = ms).
Proof.
  intros Hne Hsize Hbulk Hlen Hack w.
  assert (BULK_SIZE E = length ms + 0) as Hk by lia.
  assert (w = {| pc := Yielding []; ack_list := []; simple_queue := q';
                 bulk_timeout := bt;
                 trace := EvNewCycle :: pull_events ms ++
                          EvBulk (payload <$> ms) :: walk_events ms results |}) as Hw.
  { unfold w. rewrite run_add, (run_pulls bt ms q' 0 Hk).
    rewrite (send_and_walk E _ (payload <$> ms) results); cbn; try done.
    - by destruct ms.
    - fold (bulk_calls (pull_events ms)). by rewrite bulk_calls_pull_events. }
  assert (acks (trace w) = successes ms results) as Hacks.
  { rewrite Hw. cbn [trace].
    change (acks ([EvNewCycle] ++ pull_events ms ++
                  [EvBulk (payload <$> ms)] ++ walk_events ms results)
            = successes ms results).
    by rewrite !acks_app, acks_pull_events, acks_walk_events. }
  split_and!; [exact Hw|exact Hacks|].
  intros Hall. rewrite Hacks. by apply successes_all.
Qed.

(** X13: a response with more results than there are pending messages is
    walked as far as the pending list goes; the next result makes the pop
    fail on the empty list, the [IndexError] is logged, and the cycle
    restarts.  The results after that one are never looked at. *)
Theorem X13_surplus_result_raises_IndexError w chunk results ok later :
  pc w = Pulling 0 chunk → chunk ≠ [] →
  es_bulk E (length (bulk_calls (trace w))) chunk
    = BulkResponse (results ++ ok :: later) →
  length (ack_list w) = length results →
  Forall (λ m, msg_ack E m = None) (ack_list w) →
  Nat.iter (length results + 2) step w =
    {| pc := Restart; ack_list := []; simple_queue := simple_queue w;
       bulk_timeout := bulk_timeout w;
       trace := trace w ++ EvBulk chunk :: walk_events (ack_list w) results
                  ++ [EvLog IndexError] |}.
Proof.
  intros Hpc Hne Hbulk Hlen Hack.
  replace (length results + 2) with (1 + (length results + 1)) by lia.
  rewrite !Nat.iter_add. change (Nat.iter 1 step w) with (step w).
  rewrite (step_send E w chunk _ Hpc Hne Hbulk).
  rewrite (walk_prefix results _ (ack_list w) [] (ok :: later));
    cbn; rewrite ?app_nil_r; try done.
  unfold flush_to_es_step, handle. cbn. by rewrite <- !app_assoc.
Qed.

(** X14: a response with fewer results than there are pending messages is
    not noticed: the results are walked, nothing is logged, and the loop
    goes on to collect the next chunk with the unanswered messages still at
    the head of the pending list. *)
Theorem X14_short_response_goes_unnoticed w chunk results ms stale :
  pc w = Pulling 0 chunk → chunk ≠ [] →
  es_bulk E (length (bulk_calls (trace w))) chunk = BulkResponse results →
  ack_list w = ms ++ stale → length ms = length results →
  Forall (λ m, msg_ack E m = None) ms →
  Nat.iter (length results + 2) step w =
    {| pc := Pulling (BULK_SIZE E) []; ack_list := stale;
       simple_queue := simple_queue w; bulk_timeout := bulk_timeout w;
       trace := trace w ++ EvBulk chunk :: walk_events ms results |}.
Proof.
  intros Hpc Hne Hbulk Hal Hlen Hack.
  replace (length results + 2) with (1 + (length results + 1)) by lia.
  rewrite !Nat.iter_add. change (Nat.iter 1 step w) with (step w).
  rewrite (step_send E w chunk _ Hpc Hne Hbulk).
  rewrite <- (app_nil_r results) at 2.
  rewrite (walk_prefix results _ ms stale []); cbn; try done.
  by rewrite <- !app_assoc.
Qed.

Lemma idle_timeouts k : ∀ w q',
  0 < BULK_SIZE E → pc w = Restart →
  simple_queue w = replicate k (GetRaises Empty) ++ q' →
  Nat.iter (2 * k) step w =
    {| pc := Restart; ack_list := match k with 0 => ack_list w | _ => [] end;
       simple_queue := q'; bulk_timeout := bulk_timeout w;
       trace := trace w ++ concat (replicate k [EvNewCycle; EvLog Empty]) |}.
Proof.
  induction k as [|k IH]; intros w q' Hpos Hpc Hq.
  - destruct w; cbn in *. subst. by rewrite app_nil_r.
  - replace (2 * S k) with (S (S (2 * k))) by lia.
    rewrite !Nat.iter_succ_r.
    destruct w as [c al q bt tr]; cbn in Hpc, Hq. subst c q.
    assert (step (step {| pc := Restart; ack_list := al;
                          simple_queue := GetRaises Empty :: replicate k (GetRaises Empty) ++ q';
                          bulk_timeout := bt; trace := tr |}) =
            {| pc := Restart; ack_list := [];
               simple_queue := replicate k (GetRaises Empty) ++ q';
               bulk_timeout := bt; trace := tr ++ [EvNewCycle; EvLog Empty] |}) as ->.
    { unfold flush_to_es_step. cbn. destruct (BULK_SIZE E) as [|b]; [lia|].
      cbn. by rewrite <- app_assoc. }
    rewrite (IH _ q') by done. cbn.
    rewrite <- !app_assoc. cbn. by destruct k.
Qed.

(** X15: an idle worker.  While nothing arrives, every [bulk_timeout] that
    elapses costs one logged exception and one new cycle, and nothing else:
    no request is sent, nothing is acknowledged, and the worker is ready
    for whatever the queue delivers next. *)
Theorem X15_idle_worker_logs_every_timeout bt k q' :
  0 < BULK_SIZE E →
  flush_to_es E bt (replicate k (GetRaises Empty) ++ q') (2 * k) =
    {| pc := Restart; ack_list := []; simple_queue := q'; bulk_timeout := bt;
       trace := concat (replicate k [EvNewCycle; EvLog Empty]) |}.
Proof.
  intros Hpos. unfold flush_to_es.
  rewrite (idle_timeouts k _ q' Hpos) by done. cbn. by destruct k.
Qed.

Lemma crashed_stays w : ∀ n ex,
  pc w = Crashed ex → Nat.iter n step w = w.
Proof.
  intros n ex Hpc. induction n as [|n IH]; [done|].
  rewrite Nat.iter_succ, IH. destruct w; cbn in *. by subst.
Qed.

(** X16: an interrupt that strikes during a pull ([KeyboardInterrupt],
    [SystemExit]) is not caught: it is not logged, the worker leaves its
    loop at once and for good, and the messages on its pending list stay
    unacknowledged. *)
Theorem X16_interrupt_ends_the_worker bt q n k chunk ex q' j :
  pc (run bt q n) = Pulling (S k) chunk →
  simple_queue (run bt q n) = GetRaises ex :: q' →
  is_Exception ex = false →
  run bt q (S j + n) =
    {| pc := Crashed ex; ack_list := ack_list (run bt q n);
       simple_queue := q'; bulk_timeout := bulk_timeout (run bt q n);
       trace := trace (run bt q n) |}.
Proof.
  intros Hpc Hq Hex. rewrite run_add, Nat.iter_succ_r.
  assert (step (run bt q n) =
    {| pc := Crashed ex; ack_list := ack_list (run bt q n);
       simple_queue := q'; bulk_timeout := bulk_timeout (run bt q n);
       trace := trace (run bt q n) |}) as ->.
  { destruct (run bt q n) as [c al q0 bt0 tr]; cbn in *. subst.
    unfold flush_to_es_step, handle. cbn. by rewrite Hex. }
  by apply (crashed_stays _ j ex).
Qed.

End WorkerRuns.

(** * The further properties at concrete inputs *)

Lemma X1_witness :
  broker_up (broker world0) = true ∧
  omap action_source (es_queue (broker
    (put_messages (sink 3 all_ok)
       [doc "t1" "apache"; doc_no_tenant; doc "t2" "syslog"] world0)))
    = [doc "t1" "apache"; doc "t2" "syslog"] ∧
  length (log (put_messages (sink 3 all_ok)
       [doc "t1" "apache"; doc_no_tenant; doc "t2" "syslog"] world0)) = 1.
Proof.
  destruct (X1_batch_publishes_well_formed_in_order (sink 3 all_ok)
              [doc "t1" "apache"; doc_no_tenant; doc "t2" "syslog"] world0 eq_refl)
    as (Hsrc & _ & _ & Hlog).
  split_and!; [reflexivity|exact Hsrc|exact Hlog].
Defined.

Lemma X2_witness :
  Forall consistent_action (es_queue (broker world0)) ∧
  Forall consistent_action (es_queue (broker
    (put_messages (sink 3 all_ok) [doc "t1" "apache"; doc "t2" "syslog"] world0))).
Proof.
  split; [apply Forall_nil_2|].
  apply (X2_published_actions_agree_with_their_source (sink 3 all_ok)
           [doc "t1" "apache"; doc "t2" "syslog"] world0), Forall_nil_2.
Defined.

Lemma X3_witness :
  broker_up (broker world_down) = false ∧
  broker (put_messages (sink 3 all_ok) [doc "t1" "apache"; doc_no_tenant] world_down)
    = broker world_down ∧
  length (log (put_messages (sink 3 all_ok) [doc "t1" "apache"; doc_no_tenant] world_down))
    = 2.
Proof.
  destruct (X3_unreachable_broker_publishes_nothing (sink 3 all_ok)
              [doc "t1" "apache"; doc_no_tenant] world_down eq_refl)
    as (Hb & Hlog & _).
  split_and!; [reflexivity|exact Hb|exact Hlog].
Defined.

Lemma X4_witness :
  [payload msgB; payload msgC]
    ∈ bulk_calls (trace (flush_to_es (sink 2 all_ok) 5 queue_timeout 12)) ∧
  length [payload msgB; payload msgC] = 2 ∧
  [payload msgB; payload msgC] ≠ [].
Proof.
  assert ([payload msgB; payload msgC]
            ∈ bulk_calls (trace (flush_to_es (sink 2 all_ok) 5 queue_timeout 12))) as Hin
    by apply list_elem_of_here.
  destruct (X4_requests_are_full_chunks (sink 2 all_ok) 5 queue_timeout 12 _ Hin)
    as [Hlen Hne].
  split_and!; [exact Hin|exact Hlen|apply Hne; cbn; lia].
Defined.

Lemma X6_witness :
  NoDup (deliveries queue_ABC) ∧
  acks (trace (flush_to_es (sink 3 B_fails) 5 queue_ABC 8))
    `sublist_of` pulls (trace (flush_to_es (sink 3 B_fails) 5 queue_ABC 8)) ∧
  NoDup (acks (trace (flush_to_es (sink 3 B_fails) 5 queue_ABC 8))).
Proof.
  destruct (X6_acks_are_pulled_once_and_in_order (sink 3 B_fails) 5 queue_ABC 8
              queue_ABC_distinct) as (Hsub & _ & Hnd).
  split_and!; [exact queue_ABC_distinct|exact Hsub|exact Hnd].
Defined.

Lemma X7_witness :
  msgC ∈ acks (trace (flush_to_es (sink 3 B_fails) 5 queue_ABC 8)) ∧
  submitted msgC (trace (flush_to_es (sink 3 B_fails) 5 queue_ABC 8)).
Proof.
  assert (msgC ∈ acks (trace (flush_to_es (sink 3 B_fails) 5 queue_ABC 8))) as Hin
    by apply list_elem_of_further, list_elem_of_here.
  split; [exact Hin|].
  exact (X7_acknowledged_means_submitted (sink 3 B_fails) 5 queue_ABC 8 msgC Hin).
Defined.

Lemma X10_witness :
  BULK_SIZE (sink 0 all_ok) = 0 ∧
  pc (flush_to_es (sink 0 all_ok) 5 queue_ABC 9) = Exhausted ∧
  simple_queue (flush_to_es (sink 0 all_ok) 5 queue_ABC 9) = queue_ABC.
Proof.
  pose proof (X10_zero_bulk_size_spins (sink 0 all_ok) 5 queue_ABC 7 eq_refl) as Hrun.
  change (2 + 7) with 9 in Hrun. rewrite Hrun.
  split_and!; reflexivity.
Defined.

Lemma X11_witness :
  length [msgA] < BULK_SIZE (sink 2 all_ok) ∧
  NoDup (deliveries queue_timeout) ∧
  pc (flush_to_es (sink 2 all_ok) 5 queue_timeout 3) = Restart ∧
  bulk_calls (trace (flush_to_es (sink 2 all_ok) 5 queue_timeout 3)) = [] ∧
  (∀ k, msgA ∉ acks (trace (flush_to_es (sink 2 all_ok) 5 queue_timeout (k + 3)))).
Proof.
  assert (length [msgA] < BULK_SIZE (sink 2 all_ok)) as Hlt by (cbn; lia).
  destruct (X11_timeout_discards_a_partial_chunk (sink 2 all_ok) 5 [msgA]
              [Delivered msgB; Delivered msgC] Hlt queue_timeout_distinct)
    as (Hrun & Hbulk & Hnever).
  split_and!; [exact Hlt|exact queue_timeout_distinct|reflexivity|exact Hbulk|].
  intros k. apply (Hnever k msgA). apply list_elem_of_here.
Defined.

Lemma X12_witness :
  BULK_SIZE (sink 3 all_ok) = length [msgA; msgB; msgC] ∧
  acks (trace (flush_to_es (sink 3 all_ok) 5 queue_ABC 8)) = [msgA; msgB; msgC] ∧
  ack_list (flush_to_es (sink 3 all_ok) 5 queue_ABC 8) = [].
Proof.
  destruct (X12_full_chunk_is_flushed_and_acknowledged (sink 3 all_ok) 5
              [msgA; msgB; msgC] [] [true; true; true])
    as (Hw & _ & Hall);
    [discriminate|reflexivity|reflexivity|reflexivity|by repeat constructor|].
  split_and!; [reflexivity| |reflexivity].
  apply Hall. by repeat constructor.
Defined.

Lemma X13_witness :
  pc (flush_to_es (sink 2 one_too_many) 5 queue_ABC 3)
    = Pulling 0 [payload msgA; payload msgB] ∧
  pc (flush_to_es (sink 2 one_too_many) 5 queue_ABC 7) = Restart ∧
  logged (trace (flush_to_es (sink 2 one_too_many) 5 queue_ABC 7)) = [IndexError] ∧
  acks (trace (flush_to_es (sink 2 one_too_many) 5 queue_ABC 7)) = [msgA; msgB].
Proof.
  pose proof (X13_surplus_result_raises_IndexError (sink 2 one_too_many)
                (flush_to_es (sink 2 one_too_many) 5 queue_ABC 3)
                [payload msgA; payload msgB] [true; true] true []
                eq_refl) as Hrun.
  change (Nat.iter (length [true; true] + 2) (flush_to_es_step (sink 2 one_too_many))
            (flush_to_es (sink 2 one_too_many) 5 queue_ABC 3))
    with (flush_to_es (sink 2 one_too_many) 5 queue_ABC 7) in Hrun.
  rewrite Hrun; [|discriminate|reflexivity|reflexivity|by repeat constructor].
  split_and!; reflexivity.
Defined.

Lemma X14_witness :
  pc (flush_to_es (sink 2 one_only) 5 queue_ABC 3)
    = Pulling 0 [payload msgA; payload msgB] ∧
  pc (flush_to_es (sink 2 one_only) 5 queue_ABC 6) = Pulling 2 [] ∧
  ack_list (flush_to_es (sink 2 one_only) 5 queue_ABC 6) = [msgB] ∧
  logged (trace (flush_to_es (sink 2 one_only) 5 queue_ABC 6)) = [].
Proof.
  pose proof (X14_short_response_goes_unnoticed (sink 2 one_only)
                (flush_to_es (sink 2 one_only) 5 queue_ABC 3)
                [payload msgA; payload msgB] [true] [msgA] [msgB]
                eq_refl) as Hrun.
  change (Nat.iter (length [true] + 2) (flush_to_es_step (sink 2 one_only))
            (flush_to_es (sink 2 one_only) 5 queue_ABC 3))
    with (flush_to_es (sink 2 one_only) 5 queue_ABC 6) in Hrun.
  rewrite Hrun; [|discriminate|reflexivity|reflexivity|reflexivity|by repeat constructor].
  split_and!; reflexivity.
Defined.

Lemma X15_witness :
  0 < BULK_SIZE (sink 2 all_ok) ∧
  logged (trace (flush_to_es (sink 2 all_ok) 5
    (replicate 3 (GetRaises Empty) ++ [Delivered msgA]) 6)) = [Empty; Empty; Empty] ∧
  simple_queue (flush_to_es (sink 2 all_ok) 5
    (replicate 3 (GetRaises Empty) ++ [Delivered msgA]) 6) = [Delivered msgA].
Proof.
  assert (0 < BULK_SIZE (sink 2 all_ok)) as Hpos by (cbn; lia).
  pose proof (X15_idle_worker_logs_every_timeout (sink 2 all_ok) 5 3
                [Delivered msgA] Hpos) as Hrun.
  change (2 * 3) with 6 in Hrun. rewrite Hrun.
  split_and!; [exact Hpos|reflexivity|reflexivity].
Defined.

Lemma X16_witness :
  is_Exception KeyboardInterrupt = false ∧
  pc (flush_to_es (sink 2 all_ok) 5 queue_interrupt 9) = Crashed KeyboardInterrupt ∧
  logged (trace (flush_to_es (sink 2 all_ok) 5 queue_interrupt 9)) = [] ∧
  ack_list (flush_to_es (sink 2 all_ok) 5 queue_interrupt 9) = [msgA] ∧
  acks (trace (flush_to_es (sink 2 all_ok) 5 queue_interrupt 9)) = [].
Proof.
  pose proof (X16_interrupt_ends_the_worker (sink 2 all_ok) 5 queue_interrupt 2
                0 [payload msgA] KeyboardInterrupt [Delivered msgB] 6
                eq_refl eq_refl eq_refl) as Hrun.
  change (S 6 + 2) with 9 in Hrun. rewrite Hrun.
  split_and!; reflexivity.
Defined.
